(** * CppLogging: the asynchronous wait processor

    A shallow embedding of
    [source/logging/processors/async_wait_processor.cpp].

    The processor owns a bounded queue and one background thread.  Producers
    call [ProcessRecord] and [Flush]; the background thread runs
    [ProcessBufferedRecords]; the destructor enqueues a stop record and joins
    the thread.  The embedding is a labelled transition system: every action
    of a producer, of the destructor or of the background thread is one
    [step] on a [Config], and [step] is an executable function.  The
    background thread advances one statement of the drain loop per step, so
    producers can enqueue while a batch is being processed, as in the
    program.

    Outside the file and taken from its specification: the bounded queue.
    Outside the file and left open, as fields of [Environment]: the chain
    of the base class [Processor], the number of seconds of a time span,
    the macro [fatality], the build mode and the two handlers. *)

From Stdlib Require Import String ZArith List Bool Lia.
Import ListNotations.
Open Scope Z_scope.

(** ** Machine integers *)

(** [uint64_t] arithmetic wraps modulo [2^64]. *)
Definition wrap_uint64 (z : Z) : Z := z mod 2 ^ 64.

(** The conversion [(int64_t)u] of a [uint64_t] value [u]. *)
Definition to_int64 (u : Z) : Z := if u <? 2 ^ 63 then u else u - 2 ^ 64.

Definition is_uint64 (z : Z) : Prop := 0 <= z < 2 ^ 64.

(** ** Records *)

(** A logging record.  The drain loop reads [timestamp] only; [payload]
    stands for the fields the layout and the appenders consume. *)
Record LogRecord := { timestamp : Z; payload : nat }.

(** A default-constructed record, as in [thread_local Record stop;], with
    its timestamp assigned. *)
Definition record_with_timestamp (t : Z) : LogRecord :=
  {| timestamp := t; payload := 0%nat |}.

(** [stop.timestamp = 0;] in the destructor. *)
Definition stop : LogRecord := record_with_timestamp 0.

(** [flush.timestamp = 1;] in [Flush]. *)
Definition flush : LogRecord := record_with_timestamp 1.

Definition is_stop (r : LogRecord) : bool := timestamp r =? 0.
Definition is_flush (r : LogRecord) : bool := timestamp r =? 1.

(** ** The bounded queue *)

(** Modelled from the spec: the queue class behind [_queue] (its [Enqueue],
    [Dequeue] and [capacity]) is declared outside src/.  It has a fixed
    capacity and keeps FIFO order; [Enqueue] never blocks and rejects a
    record when the queue is at capacity; [Dequeue] blocks until a record is
    available, then moves all available records into the caller's buffer and
    clears the queue, and returns false only when the queue is closed with
    nothing left to deliver. *)
Record WaitQueue := {
  capacity : nat;
  items : list LogRecord;
  closed : bool
}.

(** Modelled from the spec: the queue's constructor, outside src/.
    [_queue(capacity, initial)] creates an empty open queue of the given
    capacity; [initial] is a reservation hint only. *)
Definition make_queue (capacity initial : nat) : WaitQueue :=
  {| capacity := capacity; items := []; closed := false |}.

(** The queue holds [capacity] unconsumed records. *)
Definition is_full (q : WaitQueue) : bool :=
  (capacity q <=? length (items q))%nat.

(** Modelled from the spec: the queue's [Enqueue], outside src/.  It never
    blocks; it returns false and leaves the queue as it is when the queue
    is at capacity, and otherwise appends the record and returns true. *)
Definition Enqueue (q : WaitQueue) (record : LogRecord) : bool * WaitQueue :=
  if is_full q then (false, q)
  else (true, {| capacity := capacity q;
                 items := items q ++ [record];
                 closed := closed q |}).

(** Modelled from the spec: the queue's [Dequeue], outside src/.  With
    records available it hands all of them over in FIFO order, clears the
    queue and returns true; on an empty queue it returns false when the
    queue is closed and blocks otherwise ([None] is a blocked consumer). *)
Definition Dequeue (q : WaitQueue) : option (bool * list LogRecord * WaitQueue) :=
  match items q with
  | [] => if closed q then Some (false, [], q) else None
  | _ :: _ =>
      Some (true, items q,
            {| capacity := capacity q; items := []; closed := closed q |})
  end.

(** ** Producer-facing operations *)

(** [bool AsyncWaitProcessor::EnqueueRecord(Record& record)] *)
Definition EnqueueRecord (q : WaitQueue) (record : LogRecord) : bool * WaitQueue :=
  Enqueue q record.

(** [bool AsyncWaitProcessor::ProcessRecord(Record& record)] *)
Definition ProcessRecord (q : WaitQueue) (record : LogRecord) : bool * WaitQueue :=
  EnqueueRecord q record.

(** [void AsyncWaitProcessor::Flush()]: the result of [EnqueueRecord] is
    discarded and nothing is returned. *)
Definition Flush (q : WaitQueue) : unit * WaitQueue :=
  let '(_, q') := EnqueueRecord q flush in (tt, q').

(** What a caller receives from a member function: nothing for a [void]
    function, a truth value for a [bool] one. *)
Inductive Returned : Type :=
| ReturnsNothing
| ReturnsBool (b : bool).

Definition returned_of_bool (b : bool) : Returned := ReturnsBool b.
Definition returned_of_void (u : unit) : Returned := ReturnsNothing.

(** ** The background thread *)

(** A [std::function<void ()>] is either empty or callable. *)
Inductive Handler : Type :=
| EmptyHandler
| ValidHandler.

Definition handler_valid (h : Handler) : bool :=
  match h with ValidHandler => true | EmptyHandler => false end.

(** Calls the background thread makes to its collaborators, in order. *)
Inductive Event : Type :=
| EvInitialize                         (* on_thread_initialize() *)
| EvProcessRecord (record : LogRecord) (* Processor::ProcessRecord(record) *)
| EvFlush                              (* Processor::Flush() *)
| EvFatality (message : string)        (* fatality(message) *)
| EvCleanup.                           (* on_thread_clenup() *)

Definition initialize_assertion : string :=
  "Thread initialize handler must be valid!".
Definition cleanup_assertion : string :=
  "Thread cleanup handler must be valid!".
Definition fatality_message : string :=
  "Asynchronous wait logging processor terminated!".

(** How the thread function ends: it returns, or the process is aborted by
    a failed [assert] or by [fatality]. *)
Inductive ThreadExit : Type :=
| ThreadReturned
| AssertionFailed (message : string)
| FatalAbort (message : string).

(** Control points of [ProcessBufferedRecords], with the thread-local
    variables that are live there: [cached] (the thread-local [timestamp],
    the timestamp cached from the previous batch), [record_timestamp] and the
    records of the batch not yet visited. *)
Inductive ThreadPC : Type :=
| AtInitialize
| AtDequeue (cached : Z)
| InBatch (cached record_timestamp : Z) (records : list LogRecord)
| AtCatch
| AtCleanup
| Exited (e : ThreadExit).

(** The destructor: not entered, blocked in [_thread.join()], returned. *)
Inductive DestructorPC : Type :=
| DtorNotStarted
| DtorJoining
| DtorReturned.

(** [l1] is [l2] with some elements left out, the order kept. *)
Inductive subsequence {A : Type} : list A -> list A -> Prop :=
| subsequence_nil : subsequence [] []
| subsequence_skip (x : A) (l1 l2 : list A) :
    subsequence l1 l2 -> subsequence l1 (x :: l2)
| subsequence_take (x : A) (l1 l2 : list A) :
    subsequence l1 l2 -> subsequence (x :: l1) (x :: l2).

(** What the thread function depends on and src/ does not define. *)
Class Environment := {
  (** The downstream chain [Processor::ProcessRecord] / [Processor::Flush]
      of the base class: a state and two operations, each of which either
      completes with a new state or throws ([None]). *)
  Chain : Type;
  Processor_ProcessRecord : Chain -> LogRecord -> option Chain;
  Processor_Flush : Chain -> option Chain;
  (** [CppCommon::Timespan(duration).seconds()] for a signed 64-bit
      [duration]: the class is outside src/ and its unit and rounding are
      left open.  All that is assumed of it is that a span which is not
      positive does not have a positive number of seconds. *)
  Timespan_seconds : Z -> Z;
  Timespan_seconds_nonpositive :
    forall duration : Z, duration <= 0 -> Timespan_seconds duration <= 0;
  (** [NDEBUG]: [assert] is compiled out. *)
  ndebug : bool;
  (** Whether the macro [fatality] returns to its caller; when it does not,
      it aborts the process. *)
  fatality_returns : bool;
  (** The handlers given to the constructor and captured by the thread. *)
  on_thread_initialize : Handler;
  on_thread_clenup : Handler
}.

Section Processor.

Context {E : Environment}.

Record Config := {
  _queue : WaitQueue;
  _thread : ThreadPC;
  chain : Chain;
  trace : list Event;          (* calls made so far, oldest first *)
  destructor : DestructorPC;
  admitted : list LogRecord    (* history: records accepted by Enqueue *)
}.

(** [CppCommon::Timespan((int64_t)(record_timestamp - timestamp)).seconds() > 1] *)
Definition auto_flush_due (cached record_timestamp : Z) : bool :=
  1 <? Timespan_seconds (to_int64 (wrap_uint64 (record_timestamp - cached))).

(** The constructor: the queue is created and the thread started. *)
Definition AsyncWaitProcessor (c0 : Chain) (capacity initial : nat) : Config :=
  {| _queue := make_queue capacity initial;
     _thread := AtInitialize;
     chain := c0;
     trace := [];
     destructor := DtorNotStarted;
     admitted := [] |}.

Definition set_thread (c : Config) (pc : ThreadPC) : Config :=
  {| _queue := _queue c; _thread := pc; chain := chain c;
     trace := trace c; destructor := destructor c;
     admitted := admitted c |}.

Definition log_call (c : Config) (e : Event) : Config :=
  {| _queue := _queue c; _thread := _thread c; chain := chain c;
     trace := trace c ++ [e]; destructor := destructor c;
     admitted := admitted c |}.

Definition set_chain (c : Config) (d : Chain) : Config :=
  {| _queue := _queue c; _thread := _thread c; chain := d;
     trace := trace c; destructor := destructor c;
     admitted := admitted c |}.

Definition set_queue (c : Config) (q : WaitQueue) : Config :=
  {| _queue := q; _thread := _thread c; chain := chain c;
     trace := trace c; destructor := destructor c;
     admitted := admitted c |}.

Definition set_destructor (c : Config) (d : DestructorPC) : Config :=
  {| _queue := _queue c; _thread := _thread c; chain := chain c;
     trace := trace c; destructor := d;
     admitted := admitted c |}.

Definition log_admitted (c : Config) (ok : bool) (record : LogRecord) : Config :=
  {| _queue := _queue c; _thread := _thread c; chain := chain c;
     trace := trace c; destructor := destructor c;
     admitted := if ok then admitted c ++ [record] else admitted c |}.

(** [assert(h && msg); if (h) h();] *)
Definition call_handler (h : Handler) (assertion : string) (e : Event)
           (next : ThreadPC) (c : Config) : Config :=
  if handler_valid h then set_thread (log_call c e) next
  else if ndebug then set_thread c next
  else set_thread c (Exited (AssertionFailed assertion)).

(** [Processor::Flush();] inside the [try] block, continuing at [next]. *)
Definition call_Flush (next : ThreadPC) (c : Config) : Config :=
  match Processor_Flush (chain c) with
  | Some d => set_thread (set_chain (log_call c EvFlush) d) next
  | None => set_thread (log_call c EvFlush) AtCatch
  end.

(** [Processor::ProcessRecord(record);] inside the [try] block. *)
Definition call_ProcessRecord (record : LogRecord) (next : ThreadPC)
           (c : Config) : Config :=
  match Processor_ProcessRecord (chain c) record with
  | Some d => set_thread (set_chain (log_call c (EvProcessRecord record)) d) next
  | None => set_thread (log_call c (EvProcessRecord record)) AtCatch
  end.

(** One statement of [ProcessBufferedRecords].  [None]: the thread is
    blocked in [Dequeue], or has ended. *)
Definition ProcessBufferedRecords_step (c : Config) : option Config :=
  match _thread c with
  | AtInitialize =>
      (* lines 54-56; the thread-local [timestamp] starts at 0 *)
      Some (call_handler on_thread_initialize initialize_assertion
                         EvInitialize (AtDequeue 0) c)
  | AtDequeue cached =>
      (* lines 70-74 *)
      match Dequeue (_queue c) with
      | None => None
      | Some (false, _, q) => Some (set_thread (set_queue c q) (Exited ThreadReturned))
      | Some (true, records, q) =>
          Some (set_thread (set_queue c q) (InBatch cached 0 records))
      end
  | InBatch cached record_timestamp (record :: records) =>
      (* lines 75-95, one record *)
      if is_stop record then Some (set_thread c (Exited ThreadReturned))
      else if is_flush record then
        Some (call_Flush (InBatch cached record_timestamp records) c)
      else
        Some (call_ProcessRecord record
                (InBatch cached
                   (if record_timestamp <? timestamp record
                    then timestamp record else record_timestamp)
                   records) c)
  | InBatch cached record_timestamp [] =>
      (* lines 97-105 *)
      if auto_flush_due cached record_timestamp
      then Some (call_Flush (AtDequeue record_timestamp) c)
      else Some (set_thread c (AtDequeue record_timestamp))
  | AtCatch =>
      (* lines 108-111 *)
      Some (set_thread (log_call c (EvFatality fatality_message))
              (if fatality_returns then AtCleanup
               else Exited (FatalAbort fatality_message)))
  | AtCleanup =>
      (* lines 113-116 *)
      Some (call_handler on_thread_clenup cleanup_assertion
                         EvCleanup (Exited ThreadReturned) c)
  | Exited _ => None
  end.


(** ** The whole system *)

(** The process is gone once an [assert] or [fatality] has aborted it. *)
Definition alive (c : Config) : bool :=
  match _thread c with
  | Exited (AssertionFailed _) | Exited (FatalAbort _) => false
  | _ => true
  end.

Definition thread_finished (c : Config) : bool :=
  match _thread c with
  | Exited ThreadReturned => true
  | _ => false
  end.

(** What can happen next: a producer calls [ProcessRecord] or [Flush], the
    background thread executes a statement, the destructor is entered and
    enqueues the stop record, or the destructor's [join] completes. *)
Inductive Action : Type :=
| ActProcessRecord (record : LogRecord)
| ActFlush
| ActThread
| ActDestroy
| ActJoin.

(** [EnqueueRecord(record)] on the processor's queue, with the history
    updated when the queue took the record. *)
Definition enqueue_logged (c : Config) (record : LogRecord) : Config :=
  let '(ok, q) := EnqueueRecord (_queue c) record in
  log_admitted (set_queue c q) ok record.

(** [AsyncWaitProcessor::~AsyncWaitProcessor], up to the call of [join]:
    the result of [EnqueueRecord(stop)] is not looked at. *)
Definition destructor_enter (c : Config) : Config :=
  set_destructor (enqueue_logged c stop) DtorJoining.

(** [_thread.join()] returns once the thread function has returned. *)
Definition destructor_join (c : Config) : option Config :=
  if thread_finished c then Some (set_destructor c DtorReturned) else None.

(** One transition; [None] when the action cannot happen in [c]. *)
Definition step (a : Action) (c : Config) : option Config :=
  if negb (alive c) then None
  else
    match a with
    | ActThread => ProcessBufferedRecords_step c
    | ActProcessRecord record =>
        match destructor c with
        | DtorReturned => None
        | _ =>
            let '(ok, q) := ProcessRecord (_queue c) record in
            Some (log_admitted (set_queue c q) ok record)
        end
    | ActFlush =>
        match destructor c with
        | DtorReturned => None
        | _ =>
            let '(_, q) := Flush (_queue c) in
            Some (log_admitted (set_queue c q) (negb (is_full (_queue c))) flush)
        end
    | ActDestroy =>
        match destructor c with
        | DtorNotStarted => Some (destructor_enter c)
        | _ => None
        end
    | ActJoin =>
        match destructor c with
        | DtorJoining => destructor_join c
        | _ => None
        end
    end.

(** A schedule is a list of actions, executed from left to right. *)
Fixpoint exec (s : list Action) (c : Config) : option Config :=
  match s with
  | [] => Some c
  | a :: s' =>
      match step a c with
      | Some c' => exec s' c'
      | None => None
      end
  end.

(** ** What the downstream chain has seen *)

(** The records passed to [Processor::ProcessRecord], in order. *)
Definition processed (tr : list Event) : list LogRecord :=
  flat_map (fun e => match e with EvProcessRecord r => [r] | _ => [] end) tr.

Definition is_EvFlush (e : Event) : bool :=
  match e with EvFlush => true | _ => false end.

(** The number of calls of [Processor::Flush]. *)
Definition flush_calls (tr : list Event) : nat :=
  length (filter is_EvFlush tr).

Definition data_records (l : list LogRecord) : list LogRecord :=
  filter (fun r => negb (is_flush r)) l.

Definition flush_records (l : list LogRecord) : list LogRecord :=
  filter is_flush l.

Definition no_stop (l : list LogRecord) : Prop :=
  Forall (fun r => is_stop r = false) l.

(** The calls the loop makes for the records of a batch without stop. *)
Definition batch_events (l : list LogRecord) : list Event :=
  map (fun r => if is_flush r then EvFlush else EvProcessRecord r) l.

(** A record has reached the chain: a flush record through
    [Processor::Flush], any other through [Processor::ProcessRecord]. *)
Definition handled (tr : list Event) (r : LogRecord) : Prop :=
  if is_flush r then In EvFlush tr else In (EvProcessRecord r) tr.

(** The chain has seen exactly the records [h]: the data records in order,
    and for every record of [h] a call of its own, a flush call for a flush
    record, these calls in the order of [h] (auto-flush adds more). *)
Definition covers (h : list LogRecord) (tr : list Event) : Prop :=
  processed tr = data_records h /\
  (length (flush_records h) <= flush_calls tr)%nat /\
  subsequence (batch_events h) tr.

(** The chain never throws. *)
Definition chain_never_throws : Prop :=
  (forall d r, Processor_ProcessRecord d r <> None) /\
  (forall d, Processor_Flush d <> None).

(** Producers keep to data timestamps: 0 is reserved for stop. *)
Definition producer_respects_stop (a : Action) : Prop :=
  match a with
  | ActProcessRecord r => is_stop r = false
  | _ => True
  end.

(** ** The effect of a batch *)

(** [record_timestamp] once the loop of lines 75-95 has visited [l]. *)
Fixpoint batch_timestamp (record_timestamp : Z) (l : list LogRecord) : Z :=
  match l with
  | [] => record_timestamp
  | r :: l' =>
      batch_timestamp
        (if is_flush r then record_timestamp
         else if record_timestamp <? timestamp r then timestamp r
              else record_timestamp) l'
  end.

(** The largest timestamp among the data records of a batch, 0 if none. *)
Definition max_data_timestamp (l : list LogRecord) : Z :=
  fold_right Z.max 0 (map timestamp (data_records l)).

Definition chain_call (d : Chain) (e : Event) : option Chain :=
  match e with
  | EvProcessRecord r => Processor_ProcessRecord d r
  | EvFlush => Processor_Flush d
  | _ => Some d
  end.

(** The chain after a sequence of calls none of which throws. *)
Fixpoint chain_calls (d : Chain) (evs : list Event) : option Chain :=
  match evs with
  | [] => Some d
  | e :: evs' =>
      match chain_call d e with
      | Some d' => chain_calls d' evs'
      | None => None
      end
  end.

(** ** The drain invariant *)

(** While the thread runs, the admitted records are those the chain has
    seen, followed by those still pending in the batch and in the queue. *)
Definition drained_up_to (c : Config) (pending : list LogRecord) : Prop :=
  exists h, no_stop h /\ covers h (trace c) /\ admitted c = h ++ pending.

(** After the thread has met a stop record, the chain has seen everything
    admitted in front of it. *)
Definition drained_to_stop (c : Config) : Prop :=
  exists h r post,
    no_stop h /\ covers h (trace c) /\ is_stop r = true /\
    admitted c = h ++ r :: post.

Definition drain_invariant (c : Config) : Prop :=
  closed (_queue c) = false /\
  (destructor c = DtorReturned -> _thread c = Exited ThreadReturned) /\
  match _thread c with
  | AtInitialize | AtDequeue _ => drained_up_to c (items (_queue c))
  | InBatch _ _ records => drained_up_to c (records ++ items (_queue c))
  | Exited ThreadReturned => drained_to_stop c
  | AtCatch => fatality_returns = false
  | AtCleanup => False
  | Exited (AssertionFailed _) | Exited (FatalAbort _) => True
  end.

(** Either the chain never throws, or [fatality] aborts the process. *)
Definition faults_are_fatal : Prop :=
  chain_never_throws \/ fatality_returns = false.

(** The thread's statements leave the queue, the destructor and the
    history as they are, except for [Dequeue]. *)
Definition same_outside_thread (c c' : Config) : Prop :=
  _queue c' = _queue c /\ destructor c' = destructor c /\
  admitted c' = admitted c.

(** [n] consecutive statements of the background thread. *)
Definition thread_steps (n : nat) : list Action := repeat ActThread n.

(** The thread is in, or past, the handler of a thrown exception. *)
Definition faulted (c : Config) : bool :=
  match _thread c with
  | AtCatch | AtCleanup | Exited (FatalAbort _) => true
  | _ => false
  end.

(** The initialize handler can be called, or its absence goes unnoticed. *)
Definition initialize_passes : Prop :=
  handler_valid on_thread_initialize = true \/ ndebug = true.

(** The call to the chain that the next statement of the thread makes, if
    it makes one. *)
Definition pending_call (c : Config) : option Event :=
  match _thread c with
  | InBatch cached record_timestamp (record :: _) =>
      if is_stop record then None
      else if is_flush record then Some EvFlush
           else Some (EvProcessRecord record)
  | InBatch cached record_timestamp [] =>
      if auto_flush_due cached record_timestamp then Some EvFlush else None
  | _ => None
  end.

(** The cleanup handler has been called, or is about to be, only after
    [fatality] was called and returned. *)
Definition cleanup_justified (c : Config) : Prop :=
  In EvCleanup (trace c) \/ _thread c = AtCleanup ->
  fatality_returns = true /\ In (EvFatality fatality_message) (trace c).

(** The initialize handler is called once, before anything else, and not
    at all when it is empty. *)
Definition initialized_once (c : Config) : Prop :=
  match _thread c with
  | AtInitialize => trace c = []
  | _ =>
      exists tr,
        trace c = (if handler_valid on_thread_initialize
                   then [EvInitialize] else []) ++ tr /\
        ~ In EvInitialize tr
  end.

(** The configuration a schedule leads to; the start itself when some
    action of the schedule cannot happen. *)
Definition after (s : list Action) (c : Config) : Config :=
  match exec s c with
  | Some c' => c'
  | None => c
  end.

(** A configuration in which the thread is visiting a batch on an empty
    queue of capacity 4. *)
Definition config_in_batch (d : Chain) (cached record_timestamp : Z)
           (records : list LogRecord) : Config :=
  {| _queue := make_queue 4 4;
     _thread := InBatch cached record_timestamp records;
     chain := d;
     trace := [EvInitialize];
     destructor := DtorNotStarted;
     admitted := records |}.

(** A configuration in which the thread waits in [Dequeue] with the given
    records in a queue of capacity 4. *)
Definition config_at_dequeue (d : Chain) (cached : Z)
           (records : list LogRecord) : Config :=
  {| _queue := {| capacity := 4; items := records; closed := false |};
     _thread := AtDequeue cached;
     chain := d;
     trace := [EvInitialize];
     destructor := DtorNotStarted;
     admitted := records |}.

(** A configuration in which the thread waits in [Dequeue] on a queue that
    is empty and closed. *)
Definition config_on_closed_queue (d : Chain) (cached : Z) : Config :=
  {| _queue := {| capacity := 4; items := []; closed := true |};
     _thread := AtDequeue cached;
     chain := d;
     trace := [EvInitialize];
     destructor := DtorNotStarted;
     admitted := [] |}.

(** ** Invariants of every run *)

(** The chain has been called for the records [h] in front of the first
    stop record, in their order: the data records are those passed to
    [Processor::ProcessRecord], and the calls made for [h], flush calls
    included, appear in the trace in the order of [h]. *)
Definition seen_prefix (c : Config) (pending : list LogRecord) : Prop :=
  exists h,
    no_stop h /\
    processed (trace c) = data_records h /\
    subsequence (batch_events h) (trace c) /\
    admitted c = h ++ pending.

(** Holds whatever the chain and [fatality] do. *)
Definition order_invariant (c : Config) : Prop :=
  (destructor c = DtorReturned -> _thread c = Exited ThreadReturned) /\
  match _thread c with
  | AtInitialize | AtDequeue _ => seen_prefix c (items (_queue c))
  | InBatch _ _ records => seen_prefix c (records ++ items (_queue c))
  | _ => exists pending, seen_prefix c pending
  end.

(** The queue and the batch in the thread's buffer stay within the
    capacity the queue was created with. *)
Definition within_capacity (n : nat) (c : Config) : Prop :=
  capacity (_queue c) = n /\
  (length (items (_queue c)) <= n)%nat /\
  match _thread c with
  | InBatch _ _ records => (length records <= n)%nat
  | _ => True
  end.

(** The thread waits in [Dequeue] on an empty open queue. *)
Definition waiting (c : Config) : Prop :=
  (exists cached, _thread c = AtDequeue cached) /\
  items (_queue c) = [] /\ closed (_queue c) = false.

(** The thread has left the [while] loop for good: it is in the handler
    of an exception, at the cleanup code, or has ended. *)
Definition left_loop (c : Config) : bool :=
  match _thread c with
  | AtCatch | AtCleanup | Exited _ => true
  | _ => false
  end.

End Processor.

(** Half a second, in the unit of the timestamps. *)
Definition half_second : Z := 500000000.

(** Three records, each enqueued when the thread waits in [Dequeue] and
    drained before the next one is enqueued. *)
Definition one_by_one (r1 r2 r3 : LogRecord) : list Action :=
  ActProcessRecord r1 :: thread_steps 3 ++
  ActProcessRecord r2 :: thread_steps 3 ++
  ActProcessRecord r3 :: thread_steps 3.

(** ** Concrete environments *)

(** An instance of [Timespan_seconds]: the duration counts nanoseconds and
    the seconds are the whole ones, rounded toward zero as C++ integer
    division does. *)
Definition whole_seconds (duration : Z) : Z := Z.quot duration 1000000000.

Definition whole_seconds_nonpositive (duration : Z) :
  duration <= 0 -> whole_seconds duration <= 0.
Proof.
  intros Hd. unfold whole_seconds.
  replace duration with (- (- duration)) by lia.
  rewrite Z.quot_opp_l by lia.
  assert (0 <= Z.quot (- duration) 1000000000) by (apply Z.quot_pos; lia).
  lia.
Qed.

(** Another instance: the duration counts nanoseconds and every started
    second counts, so that [seconds() > 1] holds exactly of the durations
    that exceed one second. *)
Definition started_seconds (duration : Z) : Z :=
  if duration <=? 0 then 0 else Z.quot (duration + 999999999) 1000000000.

Definition started_seconds_nonpositive (duration : Z) :
  duration <= 0 -> started_seconds duration <= 0.
Proof.
  intros Hd. unfold started_seconds.
  destruct (duration <=? 0) eqn:H; [lia|]. apply Z.leb_gt in H. lia.
Qed.

(** A chain without state; [throws] and [flush_throws] say which calls
    throw; [seconds] is the instance of [Timespan_seconds]. *)
Definition environment_with (seconds : Z -> Z)
  (seconds_nonpositive : forall d : Z, d <= 0 -> seconds d <= 0)
  (throws : LogRecord -> bool) (flush_throws : bool)
  (ndebug fatality_returns : bool) (initialize cleanup : Handler) : Environment :=
  {| Chain := unit;
     Processor_ProcessRecord := fun _ r => if throws r then None else Some tt;
     Processor_Flush := fun _ => if flush_throws then None else Some tt;
     Timespan_seconds := seconds;
     Timespan_seconds_nonpositive := seconds_nonpositive;
     ndebug := ndebug;
     fatality_returns := fatality_returns;
     on_thread_initialize := initialize;
     on_thread_clenup := cleanup |}.

(** The same with whole seconds. *)
Definition simple_environment : (LogRecord -> bool) -> bool -> bool -> bool ->
                                Handler -> Handler -> Environment :=
  environment_with whole_seconds whole_seconds_nonpositive.

(** A development build with started seconds, valid handlers, a chain that
    never throws and an aborting [fatality]. *)
Definition development_started : Environment :=
  environment_with started_seconds started_seconds_nonpositive
                   (fun _ => false) false false false ValidHandler ValidHandler.

(** A development build ([assert] active) with valid handlers, a chain
    that never throws and an aborting [fatality]. *)
Definition development : Environment :=
  simple_environment (fun _ => false) false false false ValidHandler ValidHandler.

Definition data (t : Z) : LogRecord := {| timestamp := t; payload := 1%nat |}.

(** A development build whose cleanup handler is empty. *)
Definition development_without_cleanup : Environment :=
  simple_environment (fun _ => false) false false false ValidHandler EmptyHandler.

(** A production build whose chain throws on the record with payload 13. *)
Definition poisoned : Environment :=
  simple_environment (fun r => Nat.eqb (payload r) 13) false true false
                     ValidHandler ValidHandler.

Definition poison : LogRecord := {| timestamp := 200; payload := 13%nat |}.

(** ** A concrete run: capacity 4, five records, shutdown *)

Definition scenario_records : list LogRecord :=
  [data 100; data 101; data 102; data 103].

(** Five calls of [ProcessRecord], the fifth on a full queue; then the
    thread calls its initialize handler and dequeues the batch. *)
Definition scenario_producers : list Action :=
  map ActProcessRecord (scenario_records ++ [data 104]) ++ thread_steps 2.

(** The destructor is entered, the thread drains the batch and meets the
    stop record, [join] completes. *)
Definition scenario_shutdown : list Action :=
  ActDestroy :: thread_steps 7 ++ [ActJoin].

(** The processor of the run, in a development build, and its
    configuration when the destructor is entered. *)
Definition scenario_start : Config (E := development) :=
  AsyncWaitProcessor (E := development) tt 4 4.

Definition scenario_ready : Config (E := development) :=
  after scenario_producers scenario_start.

(** A development build whose initialize handler is empty. *)
Definition development_without_initialize : Environment :=
  simple_environment (fun _ => false) false false false EmptyHandler ValidHandler.

(** The whole concrete run and the configuration it ends in. *)
Definition scenario_run : list Action :=
  scenario_producers ++ scenario_shutdown.

Definition scenario_end : Config (E := development) :=
  after scenario_run scenario_start.

(** The queue filled to capacity before the thread has run. *)
Definition scenario_full : Config (E := development) :=
  after (map ActProcessRecord scenario_records) scenario_start.

(** The same processor in the build with started seconds. *)
Definition started_start : Config (E := development_started) :=
  AsyncWaitProcessor (E := development_started) tt 4 4.

(** A queue at capacity. *)
Definition full_queue : WaitQueue :=
  {| capacity := 1; items := [data 100]; closed := false |}.

(** The largest [uint64_t] value. *)
Definition uint64_max : Z := 2 ^ 64 - 1.

(** Ten seconds, a timestamp for the first of three records. *)
Definition ten_seconds : Z := 20 * half_second.

(** The thread starts, then drains the three records one by one. *)
Definition fresh_thread_one_by_one : list Action :=
  ActThread ::
  one_by_one (data ten_seconds) (data (ten_seconds + half_second))
             (data (ten_seconds + 3 * half_second)).

(** The same after an earlier record, a tenth of a second before [t0]. *)
Definition warm_thread_one_by_one : list Action :=
  ActThread :: ActProcessRecord (data (ten_seconds - 100000000)) ::
  thread_steps 3 ++
  one_by_one (data ten_seconds) (data (ten_seconds + half_second))
             (data (ten_seconds + 3 * half_second)).

(** A record with the largest timestamp, then one with timestamp three
    seconds, each in a batch of its own. *)
Definition backward_run : list Action :=
  ActThread :: ActProcessRecord (data uint64_max) :: thread_steps 3 ++
  ActProcessRecord (data (6 * half_second)) :: thread_steps 3.

(** A production build in which [fatality] returns to its caller and the
    chain throws on the record with payload 13. *)
Definition returning_fatality : Environment :=
  simple_environment (fun r => Nat.eqb (payload r) 13) false true true
                     ValidHandler ValidHandler.

(** The thread starts, a record on which the chain throws is enqueued, and
    the thread runs until it has left its function. *)
Definition poisoned_run : list Action :=
  ActThread :: ActProcessRecord poison :: thread_steps 4.

(** A record that a producer sends with the reserved timestamp 0. *)
Definition stray_stop : LogRecord := {| timestamp := 0; payload := 7%nat |}.

(** ** Facts about lists of records and traces *)

Lemma processed_app (tr1 tr2 : list Event) :
  processed (tr1 ++ tr2) = processed tr1 ++ processed tr2.
Proof. unfold processed. apply flat_map_app. Qed.

Lemma flush_calls_app (tr1 tr2 : list Event) :
  flush_calls (tr1 ++ tr2) = (flush_calls tr1 + flush_calls tr2)%nat.
Proof. unfold flush_calls. rewrite filter_app, length_app. reflexivity. Qed.

Lemma data_records_app (l1 l2 : list LogRecord) :
  data_records (l1 ++ l2) = data_records l1 ++ data_records l2.
Proof. apply filter_app. Qed.

Lemma flush_records_app (l1 l2 : list LogRecord) :
  flush_records (l1 ++ l2) = flush_records l1 ++ flush_records l2.
Proof. apply filter_app. Qed.

Lemma no_stop_app (l1 l2 : list LogRecord) :
  no_stop (l1 ++ l2) <-> no_stop l1 /\ no_stop l2.
Proof. apply Forall_app. Qed.

Lemma subsequence_refl {A : Type} (l : list A) : subsequence l l.
Proof.
  induction l as [|x l IH]; [apply subsequence_nil|].
  apply subsequence_take. exact IH.
Qed.

Lemma subsequence_app_r {A : Type} (l1 l2 l3 : list A) :
  subsequence l1 l2 -> subsequence l1 (l2 ++ l3).
Proof.
  intros H. induction H; cbn.
  - induction l3 as [|x l3 IH]; [apply subsequence_nil|].
    apply subsequence_skip. exact IH.
  - apply subsequence_skip. assumption.
  - apply subsequence_take. assumption.
Qed.

Lemma subsequence_snoc {A : Type} (l1 l2 : list A) (x : A) :
  subsequence l1 l2 -> subsequence (l1 ++ [x]) (l2 ++ [x]).
Proof.
  intros H. induction H; cbn.
  - apply subsequence_take. apply subsequence_nil.
  - apply subsequence_skip. assumption.
  - apply subsequence_take. assumption.
Qed.

Lemma subsequence_nil_l {A : Type} (l : list A) : subsequence [] l.
Proof.
  induction l as [|x l IH]; [apply subsequence_nil|].
  apply subsequence_skip. exact IH.
Qed.

Lemma subsequence_app_l {A : Type} (l1 l2 l : list A) :
  subsequence (l1 ++ l2) l -> subsequence l1 l.
Proof.
  intros H. remember (l1 ++ l2) as l0 eqn:Hl0. revert l1 l2 Hl0.
  induction H as [|x l0 l H IH|x l0 l H IH]; intros l1 l2 Hl0.
  - destruct l1; [apply subsequence_nil|discriminate].
  - apply subsequence_skip. eapply IH; eauto.
  - destruct l1 as [|y l1]; [apply subsequence_nil_l|].
    cbn in Hl0. inversion Hl0; subst.
    apply subsequence_take. eapply IH; eauto.
Qed.

Lemma batch_events_app (l1 l2 : list LogRecord) :
  batch_events (l1 ++ l2) = batch_events l1 ++ batch_events l2.
Proof. apply map_app. Qed.

Lemma subsequence_In {A : Type} (l1 l2 : list A) (x : A) :
  subsequence l1 l2 -> In x l1 -> In x l2.
Proof.
  intros H. induction H; cbn; intros Hin; auto.
  destruct Hin; auto.
Qed.

Lemma covers_nil : covers [] [].
Proof. repeat split; simpl; auto. apply subsequence_nil. Qed.

Lemma covers_other (h : list LogRecord) (tr : list Event) (e : Event) :
  covers h tr -> processed [e] = [] -> covers h (tr ++ [e]).
Proof.
  intros (Hp & Hf & Hs) He. split; [|split].
  - rewrite processed_app, He, app_nil_r. exact Hp.
  - rewrite flush_calls_app. lia.
  - apply subsequence_app_r. exact Hs.
Qed.

Lemma covers_flush (h : list LogRecord) (tr : list Event) (r : LogRecord) :
  covers h tr -> is_flush r = true -> covers (h ++ [r]) (tr ++ [EvFlush]).
Proof.
  intros (Hp & Hf & Hs) Hr. split; [|split].
  - rewrite processed_app, data_records_app. cbn.
    rewrite Hr. cbn. rewrite !app_nil_r. exact Hp.
  - rewrite flush_records_app, flush_calls_app, length_app. cbn.
    rewrite Hr. cbn. lia.
  - unfold batch_events. rewrite map_app. cbn. rewrite Hr.
    apply subsequence_snoc. exact Hs.
Qed.

Lemma covers_data (h : list LogRecord) (tr : list Event) (r : LogRecord) :
  covers h tr -> is_flush r = false ->
  covers (h ++ [r]) (tr ++ [EvProcessRecord r]).
Proof.
  intros (Hp & Hf & Hs) Hr. split; [|split].
  - rewrite processed_app, data_records_app. cbn.
    rewrite Hr. cbn. rewrite Hp. reflexivity.
  - rewrite flush_records_app, flush_calls_app, length_app. cbn.
    rewrite Hr. cbn. lia.
  - unfold batch_events. rewrite map_app. cbn. rewrite Hr.
    apply subsequence_snoc. exact Hs.
Qed.

(** ** Facts about the auto-flush comparison *)

Lemma wrap_uint64_negative (z : Z) :
  - 2 ^ 64 <= z < 0 -> wrap_uint64 z = z + 2 ^ 64.
Proof.
  unfold wrap_uint64. intros H.
  rewrite <- (Z_mod_plus_full z 1 (2 ^ 64)).
  rewrite Z.mul_1_l. apply Z.mod_small. lia.
Qed.

(** ** The drain invariant holds in every reachable configuration *)

Section DrainFacts.

Context {E : Environment}.

(** With the batch timestamp behind the cached one by at most [2^63], the
    signed difference is negative and no flush is due. *)
Lemma auto_flush_due_backward (cached rt : Z) :
  is_uint64 cached -> is_uint64 rt ->
  rt < cached -> cached - rt <= 2 ^ 63 ->
  auto_flush_due cached rt = false.
Proof.
  unfold is_uint64. intros Hc Hr Hlt Hle. unfold auto_flush_due.
  rewrite wrap_uint64_negative by lia.
  unfold to_int64.
  destruct (rt - cached + 2 ^ 64 <? 2 ^ 63) eqn:H;
    [apply Z.ltb_lt in H; lia|].
  apply Z.ltb_ge.
  pose proof (Timespan_seconds_nonpositive (rt - cached + 2 ^ 64 - 2 ^ 64)).
  lia.
Qed.

(** The same timestamp twice: no flush is due. *)
Lemma auto_flush_due_same (t : Z) :
  is_uint64 t -> auto_flush_due t t = false.
Proof.
  unfold is_uint64. intros Ht. unfold auto_flush_due.
  rewrite Z.sub_diag. apply Z.ltb_ge.
  pose proof (Timespan_seconds_nonpositive (to_int64 (wrap_uint64 0))).
  change (to_int64 (wrap_uint64 0)) with 0 in *. lia.
Qed.

Lemma drain_invariant_init (c0 : Chain) (capacity initial : nat) :
  drain_invariant (AsyncWaitProcessor c0 capacity initial).
Proof.
  unfold drain_invariant, AsyncWaitProcessor; cbn.
  split; [reflexivity|]. split; [discriminate|].
  exists []. split; [constructor|]. split; [apply covers_nil|reflexivity].
Qed.

Lemma call_handler_invariant (h : Handler) (msg : string) (e : Event)
      (c : Config) (pending : list LogRecord) (cached : Z) :
  processed [e] = [] ->
  closed (_queue c) = false ->
  destructor c <> DtorReturned ->
  drained_up_to c pending ->
  items (_queue c) = pending ->
  drain_invariant (call_handler h msg e (AtDequeue cached) c).
Proof.
  intros He Hc Hd (hh & Hn & Hcov & Ha) Hi.
  unfold call_handler.
  destruct (handler_valid h); [|destruct ndebug];
    unfold drain_invariant; cbn; repeat split; auto; try congruence.
  - exists hh. cbn. rewrite Hi. split; [assumption|].
    split; [apply covers_other; assumption|assumption].
  - exists hh. cbn. rewrite Hi. auto.
Qed.

Ltac invariant_frame :=
  unfold drain_invariant; cbn;
  split; [first [assumption | reflexivity]|];
  split; [intro; congruence|].

Lemma thread_step_invariant (c c' : Config) :
  faults_are_fatal ->
  drain_invariant c -> ProcessBufferedRecords_step c = Some c' -> drain_invariant c'.
Proof.
  intros Hsafe (Hclosed & Hdtor & Hpc) Hstep.
  assert (Hnd : destructor c <> DtorReturned).
  { intro Hd. apply Hdtor in Hd. unfold ProcessBufferedRecords_step in Hstep.
    rewrite Hd in Hstep. discriminate. }
  unfold ProcessBufferedRecords_step in Hstep.
  destruct (_thread c) as [|cached|cached rt records| | |e] eqn:Hthread.
  - (* AtInitialize *)
    inversion Hstep; subst c'.
    apply call_handler_invariant with (pending := items (_queue c)); auto.
  - (* AtDequeue *)
    unfold Dequeue in Hstep. rewrite Hclosed in Hstep.
    destruct (items (_queue c)) as [|r l] eqn:Hitems; [discriminate|].
    inversion Hstep; subst c'. invariant_frame.
    destruct Hpc as (h & Hn & Hcov & Ha).
    exists h. cbn. rewrite app_nil_r. auto.
  - (* InBatch *)
    destruct Hpc as (h & Hn & Hcov & Ha).
    destruct records as [|r records].
    + (* end of the batch *)
      destruct (auto_flush_due cached rt); inversion Hstep; subst c'.
      * unfold call_Flush. destruct (Processor_Flush (chain c)) eqn:Hf;
          invariant_frame.
        -- exists h. cbn. split; [|split]; auto. apply covers_other; auto.
        -- destruct Hsafe as [[_ Hnf]|Hfr]; auto. exfalso. eapply Hnf; eauto.
      * invariant_frame. exists h. cbn. auto.
    + destruct (is_stop r) eqn:Hstop.
      * inversion Hstep; subst c'. invariant_frame.
        exists h, r, (records ++ items (_queue c)). cbn. auto.
      * assert (Hn' : no_stop (h ++ [r])).
        { apply no_stop_app. split; auto. constructor; auto. }
        assert (Ha' : admitted c = (h ++ [r]) ++ records ++ items (_queue c)).
        { rewrite Ha, <- app_assoc. reflexivity. }
        destruct (is_flush r) eqn:Hflush; inversion Hstep; subst c'.
        -- unfold call_Flush. destruct (Processor_Flush (chain c)) eqn:Hf;
             invariant_frame.
           ++ exists (h ++ [r]). cbn. split; [|split]; auto.
              apply covers_flush; auto.
           ++ destruct Hsafe as [[_ Hnf]|Hfr]; auto. exfalso. eapply Hnf; eauto.
        -- unfold call_ProcessRecord.
           destruct (Processor_ProcessRecord (chain c) r) eqn:Hp;
             invariant_frame.
           ++ exists (h ++ [r]). cbn. split; [|split]; auto.
              apply covers_data; auto.
           ++ destruct Hsafe as [[Hnp _]|Hfr]; auto. exfalso. eapply Hnp; eauto.
  - (* AtCatch *)
    inversion Hstep; subst c'. rewrite Hpc. invariant_frame. exact I.
  - contradiction.
  - discriminate.
Qed.

Lemma step_ProcessRecord_enqueue (c : Config) (r : LogRecord) :
  alive c = true -> destructor c <> DtorReturned ->
  step (ActProcessRecord r) c = Some (enqueue_logged c r).
Proof.
  intros Hal Hd. unfold step. rewrite Hal. cbn.
  unfold enqueue_logged, ProcessRecord, EnqueueRecord, Enqueue.
  destruct (destructor c); try congruence;
    destruct (is_full (_queue c)); reflexivity.
Qed.

Lemma step_Flush_enqueue (c : Config) :
  alive c = true -> destructor c <> DtorReturned ->
  step ActFlush c = Some (enqueue_logged c flush).
Proof.
  intros Hal Hd. unfold step. rewrite Hal. cbn.
  unfold enqueue_logged, Flush, EnqueueRecord, Enqueue.
  destruct (destructor c); try congruence;
    destruct (is_full (_queue c)); reflexivity.
Qed.

Lemma enqueue_logged_invariant (c : Config) (r : LogRecord) :
  drain_invariant c -> drain_invariant (enqueue_logged c r).
Proof.
  intros (Hclosed & Hdtor & Hpc).
  unfold enqueue_logged, EnqueueRecord, Enqueue.
  destruct (is_full (_queue c)).
  - unfold drain_invariant; cbn. auto.
  - unfold drain_invariant; cbn. split; [assumption|]. split; [assumption|].
    destruct (_thread c) as [|cached|cached rt records| | |[| |]]; auto.
    + destruct Hpc as (h & Hn & Hcov & Ha). exists h; cbn.
      rewrite Ha, app_assoc. auto.
    + destruct Hpc as (h & Hn & Hcov & Ha). exists h; cbn.
      rewrite Ha, !app_assoc. auto.
    + destruct Hpc as (h & Hn & Hcov & Ha). exists h; cbn.
      rewrite Ha, !app_assoc. auto.
    + destruct Hpc as (h & r0 & post & Hn & Hcov & Hr0 & Ha).
      exists h, r0, (post ++ [r]); cbn.
      rewrite Ha, <- app_assoc. auto.
Qed.

Lemma step_alive (a : Action) (c c' : Config) :
  step a c = Some c' -> alive c = true.
Proof.
  unfold step. destruct (alive c); [reflexivity|discriminate].
Qed.

Lemma step_producer_before_return (a : Action) (c c' : Config) :
  step a c = Some c' -> a <> ActThread -> a <> ActJoin ->
  destructor c <> DtorReturned.
Proof.
  intros Hstep Ht Hj Hd. unfold step in Hstep.
  destruct (alive c); cbn in Hstep; [|discriminate].
  destruct a; try congruence; rewrite Hd in Hstep; discriminate.
Qed.

Lemma step_invariant (a : Action) (c c' : Config) :
  faults_are_fatal ->
  drain_invariant c -> step a c = Some c' -> drain_invariant c'.
Proof.
  intros Hsafe Hinv Hstep.
  pose proof (step_alive _ _ _ Hstep) as Hal.
  destruct a.
  - rewrite step_ProcessRecord_enqueue in Hstep; auto.
    + inversion Hstep. apply enqueue_logged_invariant; auto.
    + eapply step_producer_before_return; eauto; discriminate.
  - rewrite step_Flush_enqueue in Hstep; auto.
    + inversion Hstep. apply enqueue_logged_invariant; auto.
    + eapply step_producer_before_return; eauto; discriminate.
  - unfold step in Hstep. rewrite Hal in Hstep. cbn in Hstep.
    eapply thread_step_invariant; eauto.
  - unfold step in Hstep. rewrite Hal in Hstep. cbn in Hstep.
    destruct (destructor c) eqn:Hd; try discriminate.
    inversion Hstep; subst c'. unfold destructor_enter.
    pose proof (enqueue_logged_invariant c stop Hinv) as (H1 & H2 & H3).
    unfold drain_invariant; cbn. split; [assumption|].
    split; [discriminate|]. exact H3.
  - unfold step in Hstep. rewrite Hal in Hstep. cbn in Hstep.
    destruct (destructor c) eqn:Hd; try discriminate.
    unfold destructor_join, thread_finished in Hstep.
    destruct Hinv as (H1 & H2 & H3).
    destruct (_thread c) as [| | | | |[| |]] eqn:Ht; try discriminate.
    inversion Hstep; subst c'.
    unfold drain_invariant; cbn. rewrite Ht. auto.
Qed.

Lemma exec_invariant (s : list Action) (c c' : Config) :
  faults_are_fatal ->
  drain_invariant c -> exec s c = Some c' -> drain_invariant c'.
Proof.
  intros Hsafe. revert c.
  induction s as [|a s IH]; intros c Hinv Hexec; cbn in Hexec.
  - inversion Hexec; subst; assumption.
  - destruct (step a c) as [c1|] eqn:Hstep; [|discriminate].
    apply (IH c1); auto. eapply step_invariant; eauto.
Qed.

Lemma exec_app (s1 s2 : list Action) (c : Config) :
  exec (s1 ++ s2) c =
  match exec s1 c with Some c1 => exec s2 c1 | None => None end.
Proof.
  revert c. induction s1 as [|a s1 IH]; intros c; cbn; [reflexivity|].
  destruct (step a c); auto.
Qed.

(** ** The history of admitted records *)

Lemma thread_step_frame (c c' : Config) :
  ProcessBufferedRecords_step c = Some c' ->
  destructor c' = destructor c /\ admitted c' = admitted c.
Proof.
  unfold ProcessBufferedRecords_step, call_handler, call_Flush, call_ProcessRecord.
  intros Hstep.
  repeat match type of Hstep with
         | context [match ?x with _ => _ end] => destruct x
         | context [if ?x then _ else _] => destruct x
         end;
    inversion Hstep; subst c'; cbn; auto.
Qed.

Lemma enqueue_logged_admitted (c : Config) (r : LogRecord) :
  admitted (enqueue_logged c r) =
  admitted c ++ (if is_full (_queue c) then [] else [r]).
Proof.
  unfold enqueue_logged, EnqueueRecord, Enqueue.
  destruct (is_full (_queue c)); cbn; auto using app_nil_r.
Qed.

Lemma step_admitted (a : Action) (c c' : Config) :
  step a c = Some c' -> exists more, admitted c' = admitted c ++ more.
Proof.
  intros Hstep. pose proof (step_alive _ _ _ Hstep) as Hal.
  destruct a.
  - rewrite step_ProcessRecord_enqueue in Hstep; auto.
    + inversion Hstep. eexists. apply enqueue_logged_admitted.
    + eapply step_producer_before_return; eauto; discriminate.
  - rewrite step_Flush_enqueue in Hstep; auto.
    + inversion Hstep. eexists. apply enqueue_logged_admitted.
    + eapply step_producer_before_return; eauto; discriminate.
  - unfold step in Hstep. rewrite Hal in Hstep. cbn in Hstep.
    apply thread_step_frame in Hstep. exists []. rewrite app_nil_r. tauto.
  - unfold step in Hstep. rewrite Hal in Hstep. cbn in Hstep.
    destruct (destructor c); try discriminate. inversion Hstep.
    unfold destructor_enter. cbn. eexists. apply enqueue_logged_admitted.
  - unfold step in Hstep. rewrite Hal in Hstep. cbn in Hstep.
    destruct (destructor c); try discriminate.
    unfold destructor_join in Hstep.
    destruct (thread_finished c); inversion Hstep.
    exists []. cbn. rewrite app_nil_r. reflexivity.
Qed.

Lemma exec_admitted (s : list Action) (c c' : Config) :
  exec s c = Some c' -> exists more, admitted c' = admitted c ++ more.
Proof.
  revert c. induction s as [|a s IH]; intros c Hexec; cbn in Hexec.
  - inversion Hexec. exists []. rewrite app_nil_r. reflexivity.
  - destruct (step a c) as [c1|] eqn:Hstep; [|discriminate].
    destruct (step_admitted _ _ _ Hstep) as [m1 H1].
    destruct (IH _ Hexec) as [m2 H2].
    exists (m1 ++ m2). rewrite H2, H1, app_assoc. reflexivity.
Qed.

(** Before the destructor is entered, the history holds what the producers
    sent, and no stop record when they keep to data timestamps. *)
Lemma step_no_stop (a : Action) (c c' : Config) :
  producer_respects_stop a ->
  step a c = Some c' ->
  (destructor c = DtorNotStarted -> no_stop (admitted c)) ->
  destructor c' = DtorNotStarted -> no_stop (admitted c').
Proof.
  intros Ha Hstep Hinv Hd'. pose proof (step_alive _ _ _ Hstep) as Hal.
  destruct a.
  - rewrite step_ProcessRecord_enqueue in Hstep; auto.
    + inversion Hstep; subst c'. rewrite enqueue_logged_admitted.
      assert (Hd : destructor c = DtorNotStarted).
      { revert Hd'. unfold enqueue_logged, EnqueueRecord, Enqueue.
        destruct (is_full (_queue c)); cbn; auto. }
      apply no_stop_app. split; auto.
      destruct (is_full (_queue c)); repeat constructor; auto.
    + eapply step_producer_before_return; eauto; discriminate.
  - rewrite step_Flush_enqueue in Hstep; auto.
    + inversion Hstep; subst c'. rewrite enqueue_logged_admitted.
      assert (Hd : destructor c = DtorNotStarted).
      { revert Hd'. unfold enqueue_logged, EnqueueRecord, Enqueue.
        destruct (is_full (_queue c)); cbn; auto. }
      apply no_stop_app. split; auto.
      destruct (is_full (_queue c)); repeat constructor; auto.
    + eapply step_producer_before_return; eauto; discriminate.
  - unfold step in Hstep. rewrite Hal in Hstep. cbn in Hstep.
    apply thread_step_frame in Hstep. destruct Hstep as [H1 H2].
    rewrite H2. apply Hinv. congruence.
  - unfold step in Hstep. rewrite Hal in Hstep. cbn in Hstep.
    destruct (destructor c); try discriminate. inversion Hstep; subst c'.
    discriminate.
  - unfold step in Hstep. rewrite Hal in Hstep. cbn in Hstep.
    destruct (destructor c); try discriminate.
    unfold destructor_join in Hstep.
    destruct (thread_finished c); inversion Hstep; subst c'. discriminate.
Qed.

Lemma exec_no_stop (s : list Action) (c c' : Config) :
  Forall producer_respects_stop s ->
  exec s c = Some c' ->
  (destructor c = DtorNotStarted -> no_stop (admitted c)) ->
  destructor c' = DtorNotStarted -> no_stop (admitted c').
Proof.
  revert c. induction s as [|a s IH]; intros c Hs Hexec Hinv; cbn in Hexec.
  - inversion Hexec; subst; assumption.
  - destruct (step a c) as [c1|] eqn:Hstep; [|discriminate].
    inversion Hs; subst.
    apply (IH c1); auto. eapply step_no_stop; eauto.
Qed.

(** A prefix without stop of a sequence whose first stop comes after [h]
    lies inside [h]. *)
Lemma no_stop_prefix (a more h post : list LogRecord) (r : LogRecord) :
  no_stop a -> is_stop r = true ->
  a ++ more = h ++ r :: post ->
  exists h', h = a ++ h'.
Proof.
  revert h. induction a as [|x a IH]; intros h Ha Hr Heq.
  - exists h. reflexivity.
  - inversion Ha as [|? ? Hx Ha']; subst.
    destruct h as [|y h]; cbn in Heq; inversion Heq; subst.
    + congruence.
    + destruct (IH h Ha' Hr H1) as [h' Hh']. exists h'. cbn. congruence.
Qed.

Lemma covers_handled (h : list LogRecord) (tr : list Event) (r : LogRecord) :
  covers h tr -> In r h -> handled tr r.
Proof.
  intros (Hp & Hf & _) Hin. unfold handled.
  destruct (is_flush r) eqn:Hr.
  - assert (Hlen : (0 < length (flush_records h))%nat).
    { assert (Hin' : In r (flush_records h)) by (apply filter_In; auto).
      destruct (flush_records h); [contradiction|cbn; lia]. }
    assert (Hpos : (0 < flush_calls tr)%nat) by lia.
    unfold flush_calls in Hpos.
    destruct (filter is_EvFlush tr) as [|e l] eqn:Hfilter; [cbn in Hpos; lia|].
    assert (He : In e (filter is_EvFlush tr)) by (rewrite Hfilter; left; auto).
    apply filter_In in He. destruct He as [He1 He2].
    destruct e; try discriminate. exact He1.
  - assert (Hin' : In r (data_records h)).
    { apply filter_In. rewrite Hr. auto. }
    rewrite <- Hp in Hin'. unfold processed in Hin'.
    apply in_flat_map in Hin'. destruct Hin' as (e & He1 & He2).
    destruct e; try contradiction. destruct He2 as [He2|[]]. subst. exact He1.
Qed.

(** ** Running the thread through a batch *)

Lemma chain_calls_never_throws (evs : list Event) (d : Chain) :
  chain_never_throws -> exists d', chain_calls d evs = Some d'.
Proof.
  intros [Hp Hf]. revert d.
  induction evs as [|e evs IH]; intros d; cbn; [eauto|].
  destruct e; cbn; auto.
  - destruct (Processor_ProcessRecord d record) eqn:H; [auto|].
    exfalso. eapply Hp; eauto.
  - destruct (Processor_Flush d) eqn:H; [auto|].
    exfalso. eapply Hf; eauto.
Qed.

Lemma step_thread (c : Config) :
  alive c = true -> step ActThread c = ProcessBufferedRecords_step c.
Proof. intros H. unfold step. rewrite H. reflexivity. Qed.

Lemma alive_InBatch (c : Config) (cached rt : Z) (l : list LogRecord) :
  _thread c = InBatch cached rt l -> alive c = true.
Proof. intros H. unfold alive. rewrite H. reflexivity. Qed.

Lemma alive_AtDequeue (c : Config) (cached : Z) :
  _thread c = AtDequeue cached -> alive c = true.
Proof. intros H. unfold alive. rewrite H. reflexivity. Qed.

(** The loop of lines 75-95 over records without stop, none of whose calls
    throws: every record is passed on, in order, and [record_timestamp]
    ends as [batch_timestamp] says. *)
Lemma run_batch (l rest : list LogRecord) (c : Config) (cached rt : Z)
      (d' : Chain) :
  _thread c = InBatch cached rt (l ++ rest) ->
  no_stop l ->
  chain_calls (chain c) (batch_events l) = Some d' ->
  exists c',
    exec (thread_steps (length l)) c = Some c' /\
    _thread c' = InBatch cached (batch_timestamp rt l) rest /\
    trace c' = trace c ++ batch_events l /\
    chain c' = d' /\
    same_outside_thread c c'.
Proof.
  revert c rt. induction l as [|r l IH]; intros c rt Hpc Hn Hcalls.
  - cbn in *. inversion Hcalls; subst. exists c.
    rewrite app_nil_r. unfold same_outside_thread. repeat split; auto.
  - inversion Hn as [|? ? Hr Hn']; subst.
    cbn [length thread_steps repeat exec].
    rewrite step_thread by (eapply alive_InBatch; eauto).
    unfold ProcessBufferedRecords_step. rewrite Hpc. cbn [app]. rewrite Hr.
    cbn in Hcalls.
    destruct (is_flush r) eqn:Hflush; cbn in Hcalls.
    + unfold call_Flush.
      destruct (Processor_Flush (chain c)) as [d|] eqn:Hf; [|discriminate].
      match goal with |- context [exec _ ?c1] =>
        destruct (IH c1 rt) as (c' & H1 & H2 & H3 & H4 & H5 & H6 & H7);
          auto end.
      exists c'. cbn in *. rewrite Hflush.
      rewrite H3, <- app_assoc. unfold same_outside_thread.
      repeat split; auto.
    + unfold call_ProcessRecord.
      destruct (Processor_ProcessRecord (chain c) r) as [d|] eqn:Hp;
        [|discriminate].
      match goal with |- context [exec _ ?c1] =>
        match c1 with context [InBatch _ ?rt1 _] =>
        destruct (IH c1 rt1) as (c' & H1 & H2 & H3 & H4 & H5 & H6 & H7);
          auto end end.
      exists c'. cbn in *. rewrite Hflush.
      rewrite H3, <- app_assoc. unfold same_outside_thread.
      repeat split; auto.
Qed.

Lemma thread_steps_add (n m : nat) :
  thread_steps (n + m) = thread_steps n ++ thread_steps m.
Proof. unfold thread_steps. apply repeat_app. Qed.

Lemma chain_calls_app (evs1 evs2 : list Event) (d : Chain) :
  chain_calls d (evs1 ++ evs2) =
  match chain_calls d evs1 with
  | Some d1 => chain_calls d1 evs2
  | None => None
  end.
Proof.
  revert d. induction evs1 as [|e evs1 IH]; intros d; cbn; [reflexivity|].
  destruct (chain_call d e); auto.
Qed.

(** A stop record ends the thread: the records in front of it are passed
    on, the stop record and everything behind it are not. *)
Lemma run_to_stop (pre post : list LogRecord) (r0 : LogRecord) (c : Config)
      (cached rt : Z) (d' : Chain) :
  _thread c = InBatch cached rt (pre ++ r0 :: post) ->
  no_stop pre -> is_stop r0 = true ->
  chain_calls (chain c) (batch_events pre) = Some d' ->
  exists c',
    exec (thread_steps (length pre + 1)) c = Some c' /\
    _thread c' = Exited ThreadReturned /\
    trace c' = trace c ++ batch_events pre /\
    chain c' = d' /\
    same_outside_thread c c'.
Proof.
  intros Hpc Hn Hr0 Hcalls.
  destruct (run_batch pre (r0 :: post) c cached rt d' Hpc Hn Hcalls)
    as (c1 & H1 & H2 & H3 & H4 & H5).
  rewrite thread_steps_add, exec_app, H1. cbn.
  rewrite step_thread by (eapply alive_InBatch; eauto).
  unfold ProcessBufferedRecords_step. rewrite H2, Hr0.
  eexists. split; [reflexivity|]. cbn.
  repeat split; auto; apply H5.
Qed.

(** A batch without stop, from the first record to the caching of the
    timestamp at line 105. *)
Lemma finish_batch (l : list LogRecord) (c : Config) (cached rt : Z)
      (d' : Chain) :
  _thread c = InBatch cached rt l ->
  no_stop l ->
  chain_calls (chain c)
    (batch_events l ++
     if auto_flush_due cached (batch_timestamp rt l) then [EvFlush] else [])
  = Some d' ->
  exists c',
    exec (thread_steps (length l + 1)) c = Some c' /\
    _thread c' = AtDequeue (batch_timestamp rt l) /\
    trace c' =
      trace c ++ batch_events l ++
      (if auto_flush_due cached (batch_timestamp rt l) then [EvFlush] else []) /\
    chain c' = d' /\
    same_outside_thread c c'.
Proof.
  intros Hpc Hn Hcalls.
  rewrite chain_calls_app in Hcalls.
  destruct (chain_calls (chain c) (batch_events l)) as [d1|] eqn:Hd1;
    [|discriminate].
  rewrite <- (app_nil_r l) in Hpc.
  destruct (run_batch l [] c cached rt d1 Hpc Hn Hd1)
    as (c1 & H1 & H2 & H3 & H4 & H5).
  rewrite thread_steps_add, exec_app, H1. cbn [thread_steps repeat exec].
  rewrite step_thread by (eapply alive_InBatch; eauto).
  unfold ProcessBufferedRecords_step. rewrite H2.
  destruct (auto_flush_due cached (batch_timestamp rt l)).
  - cbn in Hcalls. unfold call_Flush. rewrite H4.
    destruct (Processor_Flush d1) as [d2|]; [|discriminate].
    inversion Hcalls; subst d2.
    eexists. split; [reflexivity|]. cbn.
    rewrite H3, <- app_assoc. repeat split; auto; apply H5.
  - cbn in Hcalls. inversion Hcalls; subst d1.
    eexists. split; [reflexivity|]. cbn.
    rewrite H3, app_nil_r. repeat split; auto; apply H5.
Qed.

(** [Dequeue] hands over everything that is in the queue. *)
Lemma dequeue_batch (c : Config) (cached : Z) :
  _thread c = AtDequeue cached ->
  items (_queue c) <> [] ->
  exists c',
    step ActThread c = Some c' /\
    _thread c' = InBatch cached 0 (items (_queue c)) /\
    items (_queue c') = [] /\
    capacity (_queue c') = capacity (_queue c) /\
    closed (_queue c') = closed (_queue c) /\
    trace c' = trace c /\ chain c' = chain c /\
    destructor c' = destructor c /\ admitted c' = admitted c.
Proof.
  intros Hpc Hne.
  rewrite step_thread by (eapply alive_AtDequeue; eauto).
  unfold ProcessBufferedRecords_step, Dequeue. rewrite Hpc.
  destruct (items (_queue c)) as [|r l] eqn:Hitems; [congruence|].
  eexists. split; [reflexivity|]. cbn. repeat split; auto.
Qed.

(** ** The thread reaches a pending stop record *)

Lemma exec_thread_steps_add (n m : nat) (c c1 c2 : Config) :
  exec (thread_steps n) c = Some c1 ->
  exec (thread_steps m) c1 = Some c2 ->
  exec (thread_steps (n + m)) c = Some c2.
Proof.
  intros H1 H2. rewrite thread_steps_add, exec_app, H1. exact H2.
Qed.

Lemma first_stop_split (l : list LogRecord) :
  no_stop l \/
  exists pre r post, l = pre ++ r :: post /\ no_stop pre /\ is_stop r = true.
Proof.
  induction l as [|x l IH].
  - left. constructor.
  - destruct (is_stop x) eqn:Hx.
    + right. exists [], x, l. repeat split; auto. constructor.
    + destruct IH as [IH|(pre & r & post & H1 & H2 & H3)].
      * left. constructor; auto.
      * right. exists (x :: pre), r, post. subst l.
        repeat split; auto. constructor; auto.
Qed.

Lemma returns_from_dequeue (c : Config) (cached : Z)
      (pre post : list LogRecord) (r0 : LogRecord) :
  chain_never_throws ->
  no_stop pre -> is_stop r0 = true ->
  _thread c = AtDequeue cached ->
  items (_queue c) = pre ++ r0 :: post ->
  exists n c',
    exec (thread_steps n) c = Some c' /\
    _thread c' = Exited ThreadReturned /\
    trace c' = trace c ++ batch_events pre /\
    destructor c' = destructor c /\ admitted c' = admitted c.
Proof.
  intros Hsafe Hn Hr0 Hpc Hitems.
  destruct (dequeue_batch c cached Hpc)
    as (c1 & H1 & H2 & H3 & H4 & H5 & H6 & H7 & H8 & H9).
  { rewrite Hitems. destruct pre; discriminate. }
  rewrite Hitems in H2.
  destruct (chain_calls_never_throws (batch_events pre) (chain c1) Hsafe)
    as [d' Hd'].
  destruct (run_to_stop pre post r0 c1 cached 0 d' H2 Hn Hr0 Hd')
    as (c2 & G1 & G2 & G3 & G4 & G5 & G6 & G7).
  exists (1 + (length pre + 1))%nat, c2.
  split.
  - apply exec_thread_steps_add with (c1 := c1); auto.
    cbn. rewrite H1. reflexivity.
  - repeat split; auto; congruence.
Qed.

Lemma returns_from_batch (c : Config) (cached rt : Z)
      (records pre post : list LogRecord) (r0 : LogRecord) :
  chain_never_throws ->
  no_stop pre -> is_stop r0 = true ->
  _thread c = InBatch cached rt records ->
  records ++ items (_queue c) = pre ++ r0 :: post ->
  exists n c',
    exec (thread_steps n) c = Some c' /\
    _thread c' = Exited ThreadReturned /\
    destructor c' = destructor c /\ admitted c' = admitted c.
Proof.
  intros Hsafe Hn Hr0 Hpc Hpending.
  destruct (first_stop_split records)
    as [Hrec|(pre1 & r1 & post1 & Hrec & Hn1 & Hr1)].
  - (* the stop record is still in the queue *)
    destruct (no_stop_prefix records (items (_queue c)) pre post r0 Hrec Hr0
                Hpending) as [pre2 Hpre].
    assert (Hitems : items (_queue c) = pre2 ++ r0 :: post).
    { subst pre. rewrite <- app_assoc in Hpending.
      apply app_inv_head in Hpending. exact Hpending. }
    assert (Hn2 : no_stop pre2).
    { subst pre. apply no_stop_app in Hn. tauto. }
    destruct (chain_calls_never_throws
                (batch_events records ++
                 if auto_flush_due cached (batch_timestamp rt records)
                 then [EvFlush] else []) (chain c) Hsafe) as [d' Hd'].
    destruct (finish_batch records c cached rt d' Hpc Hrec Hd')
      as (c1 & H1 & H2 & H3 & H4 & H5 & H6 & H7).
    rewrite <- H5 in Hitems.
    destruct (returns_from_dequeue c1 _ pre2 post r0 Hsafe Hn2 Hr0 H2 Hitems)
      as (n & c2 & G1 & G2 & G3 & G4 & G5).
    exists ((length records + 1) + n)%nat, c2. split.
    + eapply exec_thread_steps_add; eauto.
    + repeat split; auto; congruence.
  - (* the stop record is in the batch *)
    subst records.
    destruct (chain_calls_never_throws (batch_events pre1) (chain c) Hsafe)
      as [d' Hd'].
    destruct (run_to_stop pre1 post1 r1 c cached rt d' Hpc Hn1 Hr1 Hd')
      as (c2 & G1 & G2 & G3 & G4 & G5 & G6 & G7).
    exists (length pre1 + 1)%nat, c2. repeat split; auto.
Qed.

Lemma thread_step_not_faulted (c c' : Config) :
  chain_never_throws ->
  faulted c = false -> ProcessBufferedRecords_step c = Some c' -> faulted c' = false.
Proof.
  intros [Hp Hf] Hc Hstep. unfold faulted in *.
  unfold ProcessBufferedRecords_step, call_handler, call_Flush, call_ProcessRecord in Hstep.
  destruct (_thread c) as [|cached|cached rt [|r records]| | |e];
    try discriminate.
  - destruct (handler_valid on_thread_initialize); [|destruct ndebug];
      inversion Hstep; reflexivity.
  - destruct (Dequeue (_queue c)) as [[[[] l] q]|]; inversion Hstep; reflexivity.
  - destruct (auto_flush_due cached rt); [|inversion Hstep; reflexivity].
    destruct (Processor_Flush (chain c)) eqn:H; [inversion Hstep; reflexivity|].
    exfalso; eapply Hf; eauto.
  - destruct (is_stop r); [inversion Hstep; reflexivity|].
    destruct (is_flush r).
    + destruct (Processor_Flush (chain c)) eqn:H;
        [inversion Hstep; reflexivity|].
      exfalso; eapply Hf; eauto.
    + destruct (Processor_ProcessRecord (chain c) r) eqn:H;
        [inversion Hstep; reflexivity|].
      exfalso; eapply Hp; eauto.
Qed.

Lemma step_not_faulted (a : Action) (c c' : Config) :
  chain_never_throws ->
  faulted c = false -> step a c = Some c' -> faulted c' = false.
Proof.
  intros Hsafe Hc Hstep. pose proof (step_alive _ _ _ Hstep) as Hal.
  destruct a.
  - rewrite step_ProcessRecord_enqueue in Hstep; auto.
    + inversion Hstep. unfold enqueue_logged, EnqueueRecord, Enqueue.
      destruct (is_full (_queue c)); exact Hc.
    + eapply step_producer_before_return; eauto; discriminate.
  - rewrite step_Flush_enqueue in Hstep; auto.
    + inversion Hstep. unfold enqueue_logged, EnqueueRecord, Enqueue.
      destruct (is_full (_queue c)); exact Hc.
    + eapply step_producer_before_return; eauto; discriminate.
  - rewrite step_thread in Hstep; auto.
    eapply thread_step_not_faulted; eauto.
  - unfold step in Hstep. rewrite Hal in Hstep. cbn in Hstep.
    destruct (destructor c); try discriminate. inversion Hstep.
    unfold destructor_enter, enqueue_logged, EnqueueRecord, Enqueue.
    destruct (is_full (_queue c)); exact Hc.
  - unfold step in Hstep. rewrite Hal in Hstep. cbn in Hstep.
    destruct (destructor c); try discriminate.
    unfold destructor_join in Hstep.
    destruct (thread_finished c); inversion Hstep. exact Hc.
Qed.

Lemma exec_not_faulted (s : list Action) (c c' : Config) :
  chain_never_throws ->
  faulted c = false -> exec s c = Some c' -> faulted c' = false.
Proof.
  intros Hsafe. revert c.
  induction s as [|a s IH]; intros c Hc Hexec; cbn in Hexec.
  - inversion Hexec; subst; assumption.
  - destruct (step a c) as [c1|] eqn:Hstep; [|discriminate].
    apply (IH c1); auto. eapply step_not_faulted; eauto.
Qed.

(** Once the stop record is in the queue, the thread returns after finitely
    many of its own statements. *)
Lemma thread_returns (c : Config) (pre post : list LogRecord)
      (r0 : LogRecord) :
  chain_never_throws -> initialize_passes ->
  alive c = true -> faulted c = false ->
  match _thread c with
  | InBatch _ _ records => records ++ items (_queue c)
  | _ => items (_queue c)
  end = pre ++ r0 :: post ->
  no_stop pre -> is_stop r0 = true ->
  exists n c',
    exec (thread_steps n) c = Some c' /\
    _thread c' = Exited ThreadReturned /\
    destructor c' = destructor c /\ admitted c' = admitted c.
Proof.
  intros Hsafe Hinit Hal Hnf Hpending Hn Hr0.
  destruct (_thread c) as [|cached|cached rt records| | |[| |]] eqn:Hpc;
    try (unfold faulted in Hnf; rewrite Hpc in Hnf; discriminate);
    try (unfold alive in Hal; rewrite Hpc in Hal; discriminate).
  - (* AtInitialize *)
    assert (Hstep : exists c1, step ActThread c = Some c1 /\
              _thread c1 = AtDequeue 0 /\ _queue c1 = _queue c /\
              destructor c1 = destructor c /\ admitted c1 = admitted c).
    { rewrite step_thread by assumption. unfold ProcessBufferedRecords_step. rewrite Hpc.
      eexists. split; [reflexivity|]. unfold call_handler.
      destruct Hinit as [Hv|Hnd].
      - rewrite Hv. cbn. auto.
      - rewrite Hnd. destruct (handler_valid on_thread_initialize); cbn; auto. }
    destruct Hstep as (c1 & H1 & H2 & H3 & H4 & H5).
    rewrite <- H3 in Hpending.
    destruct (returns_from_dequeue c1 0 pre post r0 Hsafe Hn Hr0 H2 Hpending)
      as (n & c2 & G1 & G2 & G3 & G4 & G5).
    exists (1 + n)%nat, c2. split.
    + apply exec_thread_steps_add with (c1 := c1); auto.
      cbn. rewrite H1. reflexivity.
    + repeat split; auto; congruence.
  - (* AtDequeue *)
    destruct (returns_from_dequeue c cached pre post r0 Hsafe Hn Hr0 Hpc Hpending)
      as (n & c2 & G1 & G2 & G3 & G4 & G5).
    exists n, c2. auto.
  - (* InBatch *)
    eapply returns_from_batch; eauto.
  - (* already returned *)
    exists 0%nat, c. cbn. auto.
Qed.

(** ** Shutdown *)

Lemma step_Destroy (c : Config) :
  alive c = true -> destructor c = DtorNotStarted ->
  step ActDestroy c = Some (destructor_enter c).
Proof.
  intros Hal Hd. unfold step. rewrite Hal, Hd. reflexivity.
Qed.

Lemma pending_no_stop (c : Config) :
  drain_invariant c -> no_stop (admitted c) ->
  faulted c = false -> alive c = true ->
  no_stop (match _thread c with
           | InBatch _ _ records => records ++ items (_queue c)
           | _ => items (_queue c)
           end).
Proof.
  intros (_ & _ & Hpc) Hns Hnf Hal.
  unfold faulted in Hnf. unfold alive in Hal.
  destruct (_thread c) as [|cached|cached rt records| | |[| |]];
    try discriminate.
  - destruct Hpc as (h & _ & _ & Ha). rewrite Ha in Hns.
    apply no_stop_app in Hns. tauto.
  - destruct Hpc as (h & _ & _ & Ha). rewrite Ha in Hns.
    apply no_stop_app in Hns. tauto.
  - destruct Hpc as (h & _ & _ & Ha). rewrite Ha in Hns.
    apply no_stop_app in Hns. tauto.
  - destruct Hpc as (h & r & post & _ & _ & Hr & Ha). rewrite Ha in Hns.
    apply no_stop_app in Hns. destruct Hns as [_ Hns].
    inversion Hns; congruence.
Qed.

(** C1.  Drain before exit.  Take any run of the processor in which the
    producers keep to data timestamps, up to the moment the destructor is
    entered, and let the chain never throw or [fatality] abort the process.
    Then (a) the destructor enqueues the stop record, whose timestamp is 0,
    and waits in [join]; (b) whenever the destructor has returned, the
    thread has returned, and every record admitted to the queue before the
    destructor was entered has been passed to the chain, a flush record to
    [Processor::Flush] and any other to [Processor::ProcessRecord]: the
    trace holds a call of its own for each of these records, the calls in
    the order of admission; (c) when the chain never
    throws, the initialize handler passes and the queue has room for the
    stop record, the destructor does return once the thread has executed
    enough statements. *)
Theorem drain_before_exit (c0 : Chain) (capacity initial : nat)
        (s1 : list Action) (c1 : Config) :
  faults_are_fatal ->
  Forall producer_respects_stop s1 ->
  exec s1 (AsyncWaitProcessor c0 capacity initial) = Some c1 ->
  destructor c1 = DtorNotStarted ->
  alive c1 = true ->
  (timestamp stop = 0 /\
   step ActDestroy c1 = Some (destructor_enter c1) /\
   _queue (destructor_enter c1) = snd (EnqueueRecord (_queue c1) stop) /\
   destructor (destructor_enter c1) = DtorJoining) /\
  (forall s2 c2,
      exec (ActDestroy :: s2) c1 = Some c2 ->
      destructor c2 = DtorReturned ->
      _thread c2 = Exited ThreadReturned /\
      (exists more,
          processed (trace c2) = data_records (admitted c1) ++ more) /\
      Forall (handled (trace c2)) (admitted c1) /\
      subsequence (batch_events (admitted c1)) (trace c2)) /\
  (chain_never_throws -> initialize_passes ->
   is_full (_queue c1) = false ->
   exists n c2,
     exec (ActDestroy :: thread_steps n ++ [ActJoin]) c1 = Some c2 /\
     destructor c2 = DtorReturned).
Proof.
  intros Hsafe Hs1 Hexec1 Hd1 Hal1.
  assert (Hinv1 : drain_invariant c1).
  { eapply exec_invariant; eauto. apply drain_invariant_init. }
  assert (Hns1 : no_stop (admitted c1)).
  { eapply exec_no_stop; eauto. intros _. constructor. }
  split; [|split].
  - repeat split; auto using step_Destroy.
    unfold destructor_enter, enqueue_logged.
    destruct (EnqueueRecord (_queue c1) stop); reflexivity.
  - intros s2 c2 Hexec2 Hd2.
    assert (Hinv2 : drain_invariant c2) by (eapply exec_invariant; eauto).
    destruct (exec_admitted _ _ _ Hexec2) as [more Hmore].
    destruct Hinv2 as (_ & Hret & Hpc). specialize (Hret Hd2).
    rewrite Hret in Hpc.
    destruct Hpc as (h & r & post & Hn & Hcov & Hr & Ha).
    rewrite Hmore in Ha.
    destruct (no_stop_prefix _ _ _ _ _ Hns1 Hr Ha) as [h' Hh'].
    split; [exact Hret|]. split; [|split].
    + exists (data_records h'). destruct Hcov as [Hp _].
      rewrite Hp, Hh'. apply data_records_app.
    + apply Forall_forall. intros x Hx.
      apply covers_handled with (h := h); auto.
      rewrite Hh'. apply in_or_app. auto.
    + destruct Hcov as (_ & _ & Hsub). rewrite Hh' in Hsub.
      rewrite batch_events_app in Hsub.
      eapply subsequence_app_l; eauto.
  - intros Hnever Hinit Hroom.
    assert (Hnf1 : faulted c1 = false).
    { apply (exec_not_faulted s1 (AsyncWaitProcessor c0 capacity initial) c1);
        auto. }
    pose proof (pending_no_stop c1 Hinv1 Hns1 Hnf1 Hal1) as Hpend.
    set (c1' := destructor_enter c1).
    assert (Hq : items (_queue c1') = items (_queue c1) ++ [stop]).
    { unfold c1', destructor_enter, enqueue_logged, EnqueueRecord, Enqueue.
      rewrite Hroom. reflexivity. }
    assert (Hpc : _thread c1' = _thread c1).
    { unfold c1', destructor_enter, enqueue_logged, EnqueueRecord, Enqueue.
      destruct (is_full (_queue c1)); reflexivity. }
    assert (Hdj : destructor c1' = DtorJoining) by reflexivity.
    destruct (thread_returns c1'
                (match _thread c1 with
                 | InBatch _ _ records => records ++ items (_queue c1)
                 | _ => items (_queue c1)
                 end) [] stop) as (n & c2 & G1 & G2 & G3 & G4); auto.
    { unfold alive. rewrite Hpc. exact Hal1. }
    { unfold faulted. rewrite Hpc. exact Hnf1. }
    { rewrite Hpc, Hq. destruct (_thread c1); auto using app_assoc. }
    exists n, (set_destructor c2 DtorReturned). split; [|reflexivity].
    cbn [exec]. rewrite step_Destroy by assumption. fold c1'.
    rewrite exec_app, G1. cbn [exec].
    unfold step, alive. rewrite G2. cbn. rewrite G3, Hdj.
    unfold destructor_join, thread_finished. rewrite G2. reflexivity.
Qed.

(** ** Stop is terminal *)

Lemma thread_exit_is_final (s : list Action) (c c' : Config) (e : ThreadExit) :
  _thread c = Exited e ->
  exec s c = Some c' ->
  _thread c' = Exited e /\ trace c' = trace c /\ chain c' = chain c.
Proof.
  revert c. induction s as [|a s IH]; intros c Hpc Hexec; cbn in Hexec.
  - inversion Hexec; subst. auto.
  - destruct (step a c) as [c1|] eqn:Hstep; [|discriminate].
    pose proof (step_alive _ _ _ Hstep) as Hal.
    assert (H1 : _thread c1 = Exited e /\ trace c1 = trace c /\
                 chain c1 = chain c).
    { destruct a.
      - rewrite step_ProcessRecord_enqueue in Hstep; auto.
        + inversion Hstep. unfold enqueue_logged, EnqueueRecord, Enqueue.
          destruct (is_full (_queue c)); cbn; auto.
        + eapply step_producer_before_return; eauto; discriminate.
      - rewrite step_Flush_enqueue in Hstep; auto.
        + inversion Hstep. unfold enqueue_logged, EnqueueRecord, Enqueue.
          destruct (is_full (_queue c)); cbn; auto.
        + eapply step_producer_before_return; eauto; discriminate.
      - rewrite step_thread in Hstep; auto.
        unfold ProcessBufferedRecords_step in Hstep. rewrite Hpc in Hstep. discriminate.
      - unfold step in Hstep. rewrite Hal in Hstep. cbn in Hstep.
        destruct (destructor c); try discriminate. inversion Hstep.
        unfold destructor_enter, enqueue_logged, EnqueueRecord, Enqueue.
        destruct (is_full (_queue c)); cbn; auto.
      - unfold step in Hstep. rewrite Hal in Hstep. cbn in Hstep.
        destruct (destructor c); try discriminate.
        unfold destructor_join in Hstep.
        destruct (thread_finished c); inversion Hstep. cbn. auto. }
    destruct H1 as (A1 & A2 & A3).
    destruct (IH c1 A1 Hexec) as (B1 & B2 & B3).
    repeat split; congruence.
Qed.

(** C3.  Stop is terminal.  When the thread is working on a batch whose
    first stop record is [r0], and the calls for the records in front of it
    do not throw, the thread passes on exactly those records and returns;
    from then on, whatever the producers and the destructor do, nothing
    more reaches the chain: not the records behind [r0] in the batch, and
    not the records of later batches. *)
Theorem stop_is_terminal (c : Config) (cached rt : Z)
        (pre post : list LogRecord) (r0 : LogRecord) (d' : Chain) :
  _thread c = InBatch cached rt (pre ++ r0 :: post) ->
  no_stop pre -> is_stop r0 = true ->
  chain_calls (chain c) (batch_events pre) = Some d' ->
  exists c',
    exec (thread_steps (length pre + 1)) c = Some c' /\
    _thread c' = Exited ThreadReturned /\
    trace c' = trace c ++ batch_events pre /\
    step ActThread c' = None /\
    forall s c'',
      exec s c' = Some c'' ->
      _thread c'' = Exited ThreadReturned /\
      trace c'' = trace c ++ batch_events pre /\
      chain c'' = d'.
Proof.
  intros Hpc Hn Hr0 Hcalls.
  destruct (run_to_stop pre post r0 c cached rt d' Hpc Hn Hr0 Hcalls)
    as (c' & H1 & H2 & H3 & H4 & H5).
  exists c'. repeat split; auto.
  - unfold step, alive, ProcessBufferedRecords_step. rewrite H2. reflexivity.
  - eapply thread_exit_is_final; eauto.
  - rewrite <- H3. eapply thread_exit_is_final; eauto.
  - rewrite <- H4. eapply thread_exit_is_final; eauto.
Qed.

(** ** Flush records *)

(** C6.  [Flush] builds a record with timestamp 1 and enqueues it through
    [EnqueueRecord], the path [ProcessRecord] takes: on a queue with room
    the record becomes the last one of the queue, behind the records
    enqueued before, as it would through [ProcessRecord], and on a full
    queue nothing changes; and when the drain loop meets a record with
    timestamp 1 it calls [Processor::Flush] and, unless that call throws,
    goes on with the next record of the batch, the cached timestamps
    unchanged. *)
Theorem flush_record_protocol (c : Config) (cached rt : Z)
        (r : LogRecord) (records : list LogRecord) (d : Chain) :
  _thread c = InBatch cached rt (r :: records) ->
  timestamp r = 1 ->
  Processor_Flush (chain c) = Some d ->
  timestamp flush = 1 /\
  (forall q, Flush q = (tt, snd (EnqueueRecord q flush)) /\
             snd (Flush q) = snd (ProcessRecord q flush)) /\
  (forall q, is_full q = false ->
             items (snd (Flush q)) = items q ++ [flush] /\
             capacity (snd (Flush q)) = capacity q /\
             closed (snd (Flush q)) = closed q) /\
  (forall q, is_full q = true -> snd (Flush q) = q) /\
  exists c',
    step ActThread c = Some c' /\
    _thread c' = InBatch cached rt records /\
    trace c' = trace c ++ [EvFlush] /\
    chain c' = d /\
    same_outside_thread c c'.
Proof.
  intros Hpc Hr Hf. split; [reflexivity|]. split; [|split; [|split]].
  - intros q. unfold Flush, ProcessRecord.
    destruct (EnqueueRecord q flush); auto.
  - intros q Hq. unfold Flush, EnqueueRecord, Enqueue. rewrite Hq.
    cbn. auto.
  - intros q Hq. unfold Flush, EnqueueRecord, Enqueue. rewrite Hq.
    reflexivity.
  - rewrite step_thread by (eapply alive_InBatch; eauto).
    unfold ProcessBufferedRecords_step. rewrite Hpc.
    unfold is_stop, is_flush. rewrite Hr. cbn.
    unfold call_Flush. rewrite Hf.
    eexists. split; [reflexivity|]. cbn.
    unfold same_outside_thread. repeat split; auto.
Qed.

(** ** Faults of the chain *)

Lemma thread_step_left_loop (c c' : Config) :
  left_loop c = true -> ProcessBufferedRecords_step c = Some c' ->
  left_loop c' = true /\ chain c' = chain c /\
  processed (trace c') = processed (trace c) /\
  flush_calls (trace c') = flush_calls (trace c).
Proof.
  unfold left_loop. intros Hc Hstep.
  unfold ProcessBufferedRecords_step, call_handler in Hstep.
  destruct (_thread c) as [|cached|cached rt records| | |e];
    try discriminate.
  - inversion Hstep; subst c'. unfold set_thread, log_call.
    cbn [trace chain _thread].
    rewrite processed_app, flush_calls_app. cbn.
    rewrite app_nil_r, Nat.add_0_r.
    destruct fatality_returns; auto.
  - destruct (handler_valid on_thread_clenup); [|destruct ndebug];
      inversion Hstep; subst c'; unfold set_thread, log_call;
      cbn [trace chain _thread]; auto.
    rewrite processed_app, flush_calls_app. cbn.
    rewrite app_nil_r, Nat.add_0_r. auto.
Qed.

Lemma exec_left_loop (s : list Action) (c c' : Config) :
  left_loop c = true -> exec s c = Some c' ->
  left_loop c' = true /\ chain c' = chain c /\
  processed (trace c') = processed (trace c) /\
  flush_calls (trace c') = flush_calls (trace c).
Proof.
  revert c. induction s as [|a s IH]; intros c Hc Hexec; cbn in Hexec.
  - inversion Hexec; subst. auto.
  - destruct (step a c) as [c1|] eqn:Hstep; [|discriminate].
    pose proof (step_alive _ _ _ Hstep) as Hal.
    assert (H1 : left_loop c1 = true /\ chain c1 = chain c /\
                 processed (trace c1) = processed (trace c) /\
                 flush_calls (trace c1) = flush_calls (trace c)).
    { destruct a.
      - rewrite step_ProcessRecord_enqueue in Hstep; auto.
        + inversion Hstep. unfold enqueue_logged, EnqueueRecord, Enqueue.
          destruct (is_full (_queue c)); cbn; auto.
        + eapply step_producer_before_return; eauto; discriminate.
      - rewrite step_Flush_enqueue in Hstep; auto.
        + inversion Hstep. unfold enqueue_logged, EnqueueRecord, Enqueue.
          destruct (is_full (_queue c)); cbn; auto.
        + eapply step_producer_before_return; eauto; discriminate.
      - rewrite step_thread in Hstep; auto.
        apply thread_step_left_loop; auto.
      - unfold step in Hstep. rewrite Hal in Hstep. cbn in Hstep.
        destruct (destructor c); try discriminate. inversion Hstep.
        unfold destructor_enter, enqueue_logged, EnqueueRecord, Enqueue.
        destruct (is_full (_queue c)); cbn; auto.
      - unfold step in Hstep. rewrite Hal in Hstep. cbn in Hstep.
        destruct (destructor c); try discriminate.
        unfold destructor_join in Hstep.
        destruct (thread_finished c); inversion Hstep. cbn. auto. }
    destruct H1 as (A1 & A2 & A3 & A4).
    destruct (IH c1 A1 Hexec) as (B1 & B2 & B3 & B4).
    repeat split; congruence.
Qed.

(** C7, in the form that holds of the code.  When a call the thread makes
    to the chain while it processes a batch throws, the thread leaves the
    loop at once and calls [fatality]; the failed call is not repeated and
    the rest of the batch is not visited: in no continuation is the chain
    called again.  When [fatality] does not return, the process is gone
    and no action is possible any more, so the cleanup handler is not
    called.  When [fatality] returns, the next statement of the thread is
    the cleanup code: a valid cleanup handler is called right after the
    escalation, and the thread returns. *)
Theorem consumer_fault_escalates (c : Config) (e : Event) :
  pending_call c = Some e ->
  chain_call (chain c) e = None ->
  exists c1,
    exec (thread_steps 2) c = Some c1 /\
    trace c1 = trace c ++ [e; EvFatality fatality_message] /\
    chain c1 = chain c /\
    _thread c1 = (if fatality_returns then AtCleanup
                  else Exited (FatalAbort fatality_message)) /\
    (forall s c',
        exec s c1 = Some c' ->
        chain c' = chain c /\
        processed (trace c') = processed (trace c1) /\
        flush_calls (trace c') = flush_calls (trace c1)) /\
    (fatality_returns = false -> forall a, step a c1 = None) /\
    (fatality_returns = true ->
     handler_valid on_thread_clenup = true ->
     exists c2,
       step ActThread c1 = Some c2 /\
       trace c2 = trace c1 ++ [EvCleanup] /\
       _thread c2 = Exited ThreadReturned).
Proof.
  intros Hcall Hthrow.
  assert (Hgo : exists c0, step ActThread c = Some c0 /\
            _thread c0 = AtCatch /\ trace c0 = trace c ++ [e] /\
            chain c0 = chain c).
  { unfold pending_call in Hcall.
    destruct (_thread c) as [|cached|cached rt [|r records]| | |x] eqn:Hpc;
      try discriminate;
      rewrite step_thread by (eapply alive_InBatch; eauto);
      unfold ProcessBufferedRecords_step; rewrite Hpc.
    - destruct (auto_flush_due cached rt); [|discriminate].
      inversion Hcall; subst e. cbn in Hthrow.
      unfold call_Flush. rewrite Hthrow. eexists; cbn; eauto.
    - destruct (is_stop r); [discriminate|].
      destruct (is_flush r); inversion Hcall; subst e; cbn in Hthrow.
      + unfold call_Flush. rewrite Hthrow. eexists; cbn; eauto.
      + unfold call_ProcessRecord. rewrite Hthrow. eexists; cbn; eauto. }
  destruct Hgo as (c0 & H1 & H2 & H3 & H4).
  set (c1 := set_thread (log_call c0 (EvFatality fatality_message))
               (if fatality_returns then AtCleanup
                else Exited (FatalAbort fatality_message))).
  assert (Hrun : exec (thread_steps 2) c = Some c1).
  { cbn [thread_steps repeat exec]. rewrite H1.
    unfold step, alive, ProcessBufferedRecords_step. rewrite H2.
    reflexivity. }
  assert (Hleft : left_loop c1 = true).
  { unfold left_loop, c1. cbn. destruct fatality_returns; reflexivity. }
  exists c1. split; [exact Hrun|].
  split; [unfold c1; cbn; rewrite H3, <- app_assoc; reflexivity|].
  split; [exact H4|]. split; [reflexivity|].
  split; [|split].
  - intros s c' Hexec.
    destruct (exec_left_loop s c1 c' Hleft Hexec) as (_ & B2 & B3 & B4).
    repeat split; auto. rewrite B2. exact H4.
  - intros Hfatal a. unfold step, alive, c1. cbn. rewrite Hfatal.
    reflexivity.
  - intros Hfatal Hvalid.
    rewrite step_thread
      by (unfold alive, c1; cbn; rewrite Hfatal; reflexivity).
    unfold ProcessBufferedRecords_step at 1.
    replace (_thread c1) with AtCleanup
      by (unfold c1; cbn; rewrite Hfatal; reflexivity).
    unfold call_handler. rewrite Hvalid.
    eexists. split; [reflexivity|]. cbn. auto.
Qed.

(** ** Auto-flush *)

Lemma batch_timestamp_max (l : list LogRecord) (rt : Z) :
  0 <= rt -> batch_timestamp rt l = Z.max rt (max_data_timestamp l).
Proof.
  revert rt. induction l as [|r l IH]; intros rt Hrt.
  - cbn. lia.
  - cbn [batch_timestamp]. unfold max_data_timestamp, data_records.
    cbn [filter]. destruct (is_flush r); cbn [negb].
    + apply IH; assumption.
    + cbn [map fold_right].
      fold (data_records l). fold (max_data_timestamp l).
      destruct (rt <? timestamp r) eqn:Hlt.
      * apply Z.ltb_lt in Hlt. rewrite IH by lia. lia.
      * apply Z.ltb_ge in Hlt. rewrite IH by lia. lia.
Qed.

Lemma max_data_timestamp_nonneg (l : list LogRecord) :
  0 <= max_data_timestamp l.
Proof.
  unfold max_data_timestamp.
  induction (map timestamp (data_records l)); cbn; lia.
Qed.

Lemma batch_timestamp_zero (l : list LogRecord) :
  batch_timestamp 0 l = max_data_timestamp l.
Proof.
  rewrite batch_timestamp_max by lia.
  pose proof (max_data_timestamp_nonneg l). lia.
Qed.

(** One iteration of the [while] loop over a batch without stop: the
    records are passed on, then [Processor::Flush] is called exactly when
    [auto_flush_due] holds of the cached timestamp and the largest data
    timestamp of the batch, and that timestamp is cached either way. *)
Lemma whole_batch (c : Config) (cached : Z) (d' : Chain) :
  _thread c = AtDequeue cached ->
  items (_queue c) <> [] ->
  no_stop (items (_queue c)) ->
  chain_calls (chain c)
    (batch_events (items (_queue c)) ++
     if auto_flush_due cached (max_data_timestamp (items (_queue c)))
     then [EvFlush] else []) = Some d' ->
  exists c',
    exec (thread_steps (length (items (_queue c)) + 2)) c = Some c' /\
    _thread c' = AtDequeue (max_data_timestamp (items (_queue c))) /\
    trace c' =
      trace c ++ batch_events (items (_queue c)) ++
      (if auto_flush_due cached (max_data_timestamp (items (_queue c)))
       then [EvFlush] else []) /\
    chain c' = d' /\
    items (_queue c') = [] /\
    capacity (_queue c') = capacity (_queue c) /\
    closed (_queue c') = closed (_queue c) /\
    destructor c' = destructor c /\ admitted c' = admitted c.
Proof.
  intros Hpc Hne Hn Hcalls.
  destruct (dequeue_batch c cached Hpc Hne)
    as (c1 & H1 & H2 & H3 & H4 & H5 & H6 & H7 & H8 & H9).
  rewrite <- batch_timestamp_zero in Hcalls. rewrite <- H7 in Hcalls.
  destruct (finish_batch _ c1 cached 0 d' H2 Hn Hcalls)
    as (c2 & G1 & G2 & G3 & G4 & G5 & G6 & G7).
  exists c2. rewrite batch_timestamp_zero in *.
  split.
  - replace (length (items (_queue c)) + 2)%nat
      with (1 + (length (items (_queue c)) + 1))%nat by lia.
    apply exec_thread_steps_add with (c1 := c1); auto.
    cbn. rewrite H1. reflexivity.
  - repeat split; try congruence.
Qed.

(** A data record enqueued while the thread waits on an empty queue forms
    a batch of its own. *)
Lemma single_record_batch (c : Config) (cached : Z) (r : LogRecord) :
  chain_never_throws ->
  _thread c = AtDequeue cached ->
  items (_queue c) = [] ->
  (0 < capacity (_queue c))%nat ->
  destructor c <> DtorReturned ->
  is_stop r = false -> is_flush r = false -> 0 <= timestamp r ->
  exists c',
    exec (ActProcessRecord r :: thread_steps 3) c = Some c' /\
    _thread c' = AtDequeue (timestamp r) /\
    items (_queue c') = [] /\
    capacity (_queue c') = capacity (_queue c) /\
    destructor c' = destructor c /\
    trace c' =
      trace c ++ EvProcessRecord r ::
      (if auto_flush_due cached (timestamp r) then [EvFlush] else []).
Proof.
  intros Hsafe Hpc Hitems Hcap Hd Hs Hf Ht.
  cbn [exec].
  rewrite step_ProcessRecord_enqueue
    by (auto; eapply alive_AtDequeue; eauto).
  set (c1 := enqueue_logged c r).
  assert (Hfull : is_full (_queue c) = false).
  { unfold is_full. rewrite Hitems. cbn. apply Nat.leb_gt. exact Hcap. }
  assert (Hq1 : items (_queue c1) = [r]).
  { unfold c1, enqueue_logged, EnqueueRecord, Enqueue.
    rewrite Hfull. cbn. rewrite Hitems. reflexivity. }
  assert (Hrest : _thread c1 = _thread c /\ trace c1 = trace c /\
                  capacity (_queue c1) = capacity (_queue c) /\
                  destructor c1 = destructor c).
  { unfold c1, enqueue_logged, EnqueueRecord, Enqueue.
    rewrite Hfull. cbn. auto. }
  destruct Hrest as (R1 & R2 & R3 & R4).
  assert (Hmax : max_data_timestamp [r] = timestamp r).
  { unfold max_data_timestamp, data_records. cbn. rewrite Hf. cbn. lia. }
  destruct (chain_calls_never_throws
              (batch_events (items (_queue c1)) ++
               if auto_flush_due cached (max_data_timestamp (items (_queue c1)))
               then [EvFlush] else []) (chain c1) Hsafe) as [d' Hd'].
  destruct (whole_batch c1 cached d') as (c2 & G1 & G2 & G3 & G4 & G5 & G6 & G7 & G8 & G9);
    auto.
  { congruence. }
  { rewrite Hq1. discriminate. }
  { rewrite Hq1. constructor; auto. }
  rewrite Hq1 in *. rewrite Hmax in *. cbn in G3. rewrite Hf in G3.
  exists c2. repeat split; try congruence. exact G1.
Qed.

(** Three data records, each drained in a batch of its own: each is
    compared with the timestamp cached from the batch before it. *)
Lemma three_batches (c : Config) (cached : Z) (r1 r2 r3 : LogRecord) :
  chain_never_throws ->
  _thread c = AtDequeue cached ->
  items (_queue c) = [] ->
  (0 < capacity (_queue c))%nat ->
  destructor c <> DtorReturned ->
  2 <= timestamp r1 -> 2 <= timestamp r2 -> 2 <= timestamp r3 ->
  exists c',
    exec (one_by_one r1 r2 r3) c = Some c' /\
    _thread c' = AtDequeue (timestamp r3) /\
    trace c' =
      trace c ++
      [EvProcessRecord r1] ++
      (if auto_flush_due cached (timestamp r1) then [EvFlush] else []) ++
      [EvProcessRecord r2] ++
      (if auto_flush_due (timestamp r1) (timestamp r2)
       then [EvFlush] else []) ++
      [EvProcessRecord r3] ++
      (if auto_flush_due (timestamp r2) (timestamp r3)
       then [EvFlush] else []).
Proof.
  intros Hsafe Hpc Hitems Hcap Hd Ht1 Ht2 Ht3.
  assert (Hdata : forall r, 2 <= timestamp r ->
            is_stop r = false /\ is_flush r = false /\ 0 <= timestamp r).
  { intros r Ht. unfold is_stop, is_flush.
    repeat split; try lia; apply Z.eqb_neq; lia. }
  destruct (Hdata r1 Ht1) as (S1 & F1 & P1).
  destruct (Hdata r2 Ht2) as (S2 & F2 & P2).
  destruct (Hdata r3 Ht3) as (S3 & F3 & P3).
  destruct (single_record_batch c cached r1)
    as (c1 & A1 & A2 & A3 & A4 & A5 & A6); auto.
  destruct (single_record_batch c1 (timestamp r1) r2)
    as (c2 & B1 & B2 & B3 & B4 & B5 & B6); auto; try congruence.
  destruct (single_record_batch c2 (timestamp r2) r3)
    as (c3 & C1 & C2 & C3 & C4 & C5 & C6); auto; try congruence.
  exists c3. split; [|split; [exact C2|]].
  - unfold one_by_one.
    change (ActProcessRecord r1 :: thread_steps 3 ++
            ActProcessRecord r2 :: thread_steps 3 ++
            ActProcessRecord r3 :: thread_steps 3)
      with ((ActProcessRecord r1 :: thread_steps 3) ++
            (ActProcessRecord r2 :: thread_steps 3) ++
            (ActProcessRecord r3 :: thread_steps 3)).
    rewrite exec_app, A1, exec_app, B1. exact C1.
  - rewrite C6, B6, A6. rewrite <- !app_assoc. reflexivity.
Qed.

(** C4, in the form that holds of the code.  (a) One iteration of the
    [while] loop over a batch without stop passes the records on and then
    calls [Processor::Flush] exactly when [auto_flush_due] holds of the
    cached timestamp and the largest data timestamp of the batch, that is,
    when the seconds of the time span between them exceed one; that
    timestamp is cached whether or not the flush was called.  (b) The
    comparison is [seconds() > 1] of the time span made from the signed
    64-bit difference of the two timestamps.  (c) Three data records, each
    drained in a batch of its own: the comparison after each is with
    the timestamp of the record before it, the first with the timestamp
    cached before.  So when neither the span from the
    first to the second nor the span from the second to the third counts
    for more than one second, as with [t0], [t0 + 0.5 s] and [t0 + 1.5 s],
    no flush follows the second or the third, and one follows the first
    exactly when [auto_flush_due] holds of the cached timestamp and
    [t0]. *)
Theorem auto_flush_policy :
  (forall (c : Config) (cached : Z) (d' : Chain),
      _thread c = AtDequeue cached ->
      items (_queue c) <> [] ->
      no_stop (items (_queue c)) ->
      chain_calls (chain c)
        (batch_events (items (_queue c)) ++
         if auto_flush_due cached (max_data_timestamp (items (_queue c)))
         then [EvFlush] else []) = Some d' ->
      exists c',
        exec (thread_steps (length (items (_queue c)) + 2)) c = Some c' /\
        _thread c' = AtDequeue (max_data_timestamp (items (_queue c))) /\
        trace c' =
          trace c ++ batch_events (items (_queue c)) ++
          (if auto_flush_due cached (max_data_timestamp (items (_queue c)))
           then [EvFlush] else [])) /\
  (forall cached rt : Z,
      auto_flush_due cached rt =
      (1 <? Timespan_seconds (to_int64 (wrap_uint64 (rt - cached))))) /\
  (forall (c : Config) (cached : Z) (r1 r2 r3 : LogRecord),
      chain_never_throws ->
      _thread c = AtDequeue cached ->
      items (_queue c) = [] ->
      (0 < capacity (_queue c))%nat ->
      destructor c <> DtorReturned ->
      2 <= timestamp r1 -> 2 <= timestamp r2 -> 2 <= timestamp r3 ->
      exists c',
        exec (one_by_one r1 r2 r3) c = Some c' /\
        _thread c' = AtDequeue (timestamp r3) /\
        trace c' =
          trace c ++
          [EvProcessRecord r1] ++
          (if auto_flush_due cached (timestamp r1) then [EvFlush] else []) ++
          [EvProcessRecord r2] ++
          (if auto_flush_due (timestamp r1) (timestamp r2)
           then [EvFlush] else []) ++
          [EvProcessRecord r3] ++
          (if auto_flush_due (timestamp r2) (timestamp r3)
           then [EvFlush] else []) /\
        (auto_flush_due (timestamp r1) (timestamp r2) = false ->
         auto_flush_due (timestamp r2) (timestamp r3) = false ->
         trace c' =
           trace c ++
           [EvProcessRecord r1] ++
           (if auto_flush_due cached (timestamp r1) then [EvFlush] else []) ++
           [EvProcessRecord r2; EvProcessRecord r3])).
Proof.
  split; [|split].
  - intros c cached d' Hpc Hne Hn Hcalls.
    destruct (whole_batch c cached d' Hpc Hne Hn Hcalls)
      as (c' & H1 & H2 & H3 & _).
    exists c'. auto.
  - reflexivity.
  - intros c cached r1 r2 r3 Hsafe Hpc Hitems Hcap Hd Ht1 Ht2 Ht3.
    destruct (three_batches c cached r1 r2 r3 Hsafe Hpc Hitems Hcap Hd
                Ht1 Ht2 Ht3) as (c' & H1 & H2 & H3).
    exists c'. split; [exact H1|]. split; [exact H2|].
    split; [exact H3|].
    intros H12 H23. rewrite H3, H12, H23. cbn. reflexivity.
Qed.

(** ** The destructor and a full queue *)

(** C9.  The destructor enqueues the stop record and goes on to [join]
    whatever [EnqueueRecord] returned.  With the queue at capacity the
    result is false, the queue and the history are left as they were (the
    stop record is dropped), and the destructor neither enqueues again nor
    does anything but wait in [join]. *)
Theorem destructor_ignores_enqueue_result (c : Config) :
  alive c = true ->
  destructor c = DtorNotStarted ->
  step ActDestroy c = Some (destructor_enter c) /\
  destructor (destructor_enter c) = DtorJoining /\
  step ActDestroy (destructor_enter c) = None /\
  (is_full (_queue c) = true ->
   fst (EnqueueRecord (_queue c) stop) = false /\
   _queue (destructor_enter c) = _queue c /\
   admitted (destructor_enter c) = admitted c) /\
  (is_full (_queue c) = false ->
   fst (EnqueueRecord (_queue c) stop) = true /\
   items (_queue (destructor_enter c)) = items (_queue c) ++ [stop]).
Proof.
  intros Hal Hd.
  split; [apply step_Destroy; assumption|].
  split; [reflexivity|].
  split.
  - unfold step. destruct (alive (destructor_enter c)); reflexivity.
  - unfold destructor_enter, enqueue_logged, EnqueueRecord, Enqueue.
    split; intros Hfull; rewrite Hfull; cbn; auto.
Qed.

Lemma exec_no_stop_after_destroy (s : list Action) (c c' : Config) :
  Forall producer_respects_stop s ->
  destructor c <> DtorNotStarted ->
  exec s c = Some c' ->
  no_stop (admitted c) -> no_stop (admitted c').
Proof.
  revert c. induction s as [|a s IH]; intros c Hs Hd Hexec Hns; cbn in Hexec.
  - inversion Hexec; subst; assumption.
  - destruct (step a c) as [c1|] eqn:Hstep; [|discriminate].
    inversion Hs as [|? ? Ha Hs']; subst.
    pose proof (step_alive _ _ _ Hstep) as Hal.
    assert (H1 : destructor c1 <> DtorNotStarted /\ no_stop (admitted c1)).
    { destruct a.
      - rewrite step_ProcessRecord_enqueue in Hstep; auto.
        + inversion Hstep; subst c1. rewrite enqueue_logged_admitted.
          split.
          * unfold enqueue_logged, EnqueueRecord, Enqueue.
            destruct (is_full (_queue c)); exact Hd.
          * apply no_stop_app. split; auto.
            destruct (is_full (_queue c)); repeat constructor; auto.
        + eapply step_producer_before_return; eauto; discriminate.
      - rewrite step_Flush_enqueue in Hstep; auto.
        + inversion Hstep; subst c1. rewrite enqueue_logged_admitted.
          split.
          * unfold enqueue_logged, EnqueueRecord, Enqueue.
            destruct (is_full (_queue c)); exact Hd.
          * apply no_stop_app. split; auto.
            destruct (is_full (_queue c)); repeat constructor; auto.
        + eapply step_producer_before_return; eauto; discriminate.
      - rewrite step_thread in Hstep; auto.
        apply thread_step_frame in Hstep. destruct Hstep as [F1 F2].
        rewrite F1, F2. auto.
      - unfold step in Hstep. rewrite Hal in Hstep. cbn in Hstep.
        destruct (destructor c); try discriminate. congruence.
      - unfold step in Hstep. rewrite Hal in Hstep. cbn in Hstep.
        destruct (destructor c); try discriminate.
        unfold destructor_join in Hstep.
        destruct (thread_finished c); inversion Hstep; subst c1.
        cbn. split; [discriminate|assumption]. }
    destruct H1. apply (IH c1); auto.
Qed.

(** X8.  When the queue is full as the destructor is entered, the stop
    record is dropped; if the producers keep to data timestamps, the thread
    then never returns and [join] never completes, whatever else happens. *)
Lemma dropped_stop_blocks_join (c0 : Chain) (capacity initial : nat)
      (s1 s2 : list Action) (c1 c2 : Config) :
  faults_are_fatal ->
  Forall producer_respects_stop s1 ->
  Forall producer_respects_stop s2 ->
  exec s1 (AsyncWaitProcessor c0 capacity initial) = Some c1 ->
  destructor c1 = DtorNotStarted ->
  is_full (_queue c1) = true ->
  exec (ActDestroy :: s2) c1 = Some c2 ->
  destructor c2 <> DtorReturned /\ _thread c2 <> Exited ThreadReturned.
Proof.
  intros Hsafe Hs1 Hs2 Hexec1 Hd1 Hfull Hexec2.
  assert (Hns1 : no_stop (admitted c1)).
  { apply (exec_no_stop s1 (AsyncWaitProcessor c0 capacity initial) c1); auto.
    intros _. constructor. }
  assert (Hinv2 : drain_invariant c2).
  { eapply exec_invariant; [exact Hsafe| |exact Hexec2].
    eapply exec_invariant; [exact Hsafe| |exact Hexec1].
    apply drain_invariant_init. }
  cbn [exec] in Hexec2.
  destruct (step ActDestroy c1) as [c1'|] eqn:Hstep; [|discriminate].
  pose proof (step_alive _ _ _ Hstep) as Hal.
  rewrite step_Destroy in Hstep by assumption. inversion Hstep; subst c1'.
  assert (Hns2 : no_stop (admitted c2)).
  { eapply exec_no_stop_after_destroy; [exact Hs2| |exact Hexec2|].
    - discriminate.
    - unfold destructor_enter, enqueue_logged, EnqueueRecord, Enqueue.
      rewrite Hfull. exact Hns1. }
  assert (Hnr : _thread c2 <> Exited ThreadReturned).
  { intros Hret. destruct Hinv2 as (_ & _ & Hpc). rewrite Hret in Hpc.
    destruct Hpc as (h & r & post & _ & _ & Hr & Ha).
    rewrite Ha in Hns2. apply no_stop_app in Hns2. destruct Hns2 as [_ Hns2].
    inversion Hns2; congruence. }
  split; [|exact Hnr].
  intros Hret. destruct Hinv2 as (_ & Hd & _). auto.
Qed.

Lemma max_data_timestamp_flush_only (l : list LogRecord) :
  Forall (fun r => is_flush r = true) l -> max_data_timestamp l = 0.
Proof.
  unfold max_data_timestamp, data_records.
  induction 1 as [|r l Hr Hl IH]; cbn; auto.
  rewrite Hr. cbn. exact IH.
Qed.

Lemma flush_only_no_stop (l : list LogRecord) :
  Forall (fun r => is_flush r = true) l -> no_stop l.
Proof.
  intros Hall. eapply Forall_impl; [|exact Hall]. cbn. intros r Hr.
  unfold is_flush in Hr. unfold is_stop.
  apply Z.eqb_eq in Hr. rewrite Hr. reflexivity.
Qed.

(** C10, in the form that holds of the code.  (a) A batch of flush records only, none of whose
    calls throws, leaves 0 in the cached timestamp.  (b) The comparison
    takes the difference of the two timestamps modulo [2^64] and reads it
    as a signed 64-bit value.  (c) A batch timestamp behind the cached one
    by at most [2^63] does not trigger a flush. *)
Theorem flush_only_batch_and_backward_time :
  (forall (c : Config) (cached : Z) (d' : Chain),
      _thread c = AtDequeue cached ->
      items (_queue c) <> [] ->
      Forall (fun r => is_flush r = true) (items (_queue c)) ->
      chain_calls (chain c)
        (batch_events (items (_queue c)) ++
         if auto_flush_due cached 0 then [EvFlush] else []) = Some d' ->
      exists c',
        exec (thread_steps (length (items (_queue c)) + 2)) c = Some c' /\
        _thread c' = AtDequeue 0) /\
  (forall cached rt : Z,
      auto_flush_due cached rt =
      (1 <? Timespan_seconds (to_int64 ((rt - cached) mod 2 ^ 64)))) /\
  (forall cached rt : Z,
      is_uint64 cached -> is_uint64 rt ->
      rt < cached -> cached - rt <= 2 ^ 63 ->
      auto_flush_due cached rt = false).
Proof.
  split; [|split].
  - intros c cached d' Hpc Hne Hall Hcalls.
    pose proof (max_data_timestamp_flush_only _ Hall) as Hmax.
    pose proof (flush_only_no_stop _ Hall) as Hn.
    rewrite <- Hmax in Hcalls.
    destruct (whole_batch c cached d' Hpc Hne Hn Hcalls)
      as (c' & H1 & H2 & _).
    exists c'. rewrite Hmax in H2. auto.
  - reflexivity.
  - apply auto_flush_due_backward.
Qed.

(** ** The handlers *)

Lemma thread_step_cleanup_justified (c c' : Config) :
  cleanup_justified c -> ProcessBufferedRecords_step c = Some c' -> cleanup_justified c'.
Proof.
  unfold cleanup_justified. intros Hc Hstep.
  unfold ProcessBufferedRecords_step, call_handler, call_Flush, call_ProcessRecord in Hstep.
  destruct (_thread c) as [|cached|cached rt [|r records]| | |e] eqn:Hpc;
    repeat match type of Hstep with
           | context [match ?x with _ => _ end] => destruct x
           | context [if ?x then _ else _] => destruct x eqn:?
           end;
    inversion Hstep; subst c'; cbn;
    try (intros [Hin|Hat]; [|discriminate]);
    try (apply in_app_or in Hin; destruct Hin as [Hin|[Hin|[]]];
         [|discriminate]);
    try (destruct Hc as [H1 H2]; [tauto|];
         split; [exact H1|try apply in_or_app; auto]).
  intros _. split; [reflexivity|]. apply in_or_app. right. left. reflexivity.
Qed.

Lemma step_cleanup_justified (a : Action) (c c' : Config) :
  cleanup_justified c -> step a c = Some c' -> cleanup_justified c'.
Proof.
  intros Hc Hstep. pose proof (step_alive _ _ _ Hstep) as Hal.
  destruct a.
  - rewrite step_ProcessRecord_enqueue in Hstep; auto.
    + inversion Hstep. unfold enqueue_logged, EnqueueRecord, Enqueue.
      destruct (is_full (_queue c)); exact Hc.
    + eapply step_producer_before_return; eauto; discriminate.
  - rewrite step_Flush_enqueue in Hstep; auto.
    + inversion Hstep. unfold enqueue_logged, EnqueueRecord, Enqueue.
      destruct (is_full (_queue c)); exact Hc.
    + eapply step_producer_before_return; eauto; discriminate.
  - rewrite step_thread in Hstep; auto.
    eapply thread_step_cleanup_justified; eauto.
  - unfold step in Hstep. rewrite Hal in Hstep. cbn in Hstep.
    destruct (destructor c); try discriminate. inversion Hstep.
    unfold destructor_enter, enqueue_logged, EnqueueRecord, Enqueue.
    destruct (is_full (_queue c)); exact Hc.
  - unfold step in Hstep. rewrite Hal in Hstep. cbn in Hstep.
    destruct (destructor c); try discriminate.
    unfold destructor_join in Hstep.
    destruct (thread_finished c); inversion Hstep. exact Hc.
Qed.

(** X9.  In every run of the processor, the cleanup handler is called only
    after [fatality] was called and returned: the two [return] statements
    of the loop leave the thread function without reaching it. *)
Lemma cleanup_needs_returning_fatality (c0 : Chain) (capacity initial : nat)
      (s : list Action) (c : Config) :
  exec s (AsyncWaitProcessor c0 capacity initial) = Some c ->
  In EvCleanup (trace c) ->
  fatality_returns = true /\ In (EvFatality fatality_message) (trace c).
Proof.
  intros Hexec Hin.
  assert (Hj : cleanup_justified c).
  { clear Hin. revert Hexec.
    assert (H0 : cleanup_justified (AsyncWaitProcessor c0 capacity initial)).
    { unfold cleanup_justified; cbn. intros [[]|H]; discriminate. }
    revert H0. generalize (AsyncWaitProcessor c0 capacity initial).
    induction s as [|a s IH]; intros x Hx Hexec; cbn in Hexec.
    - inversion Hexec; subst; assumption.
    - destruct (step a x) as [x1|] eqn:Hstep; [|discriminate].
      apply (IH x1); auto. eapply step_cleanup_justified; eauto. }
  apply Hj. auto.
Qed.

Lemma thread_step_initialized_once (c c' : Config) :
  initialized_once c -> ProcessBufferedRecords_step c = Some c' -> initialized_once c'.
Proof.
  unfold initialized_once. intros Hc Hstep.
  unfold ProcessBufferedRecords_step, call_handler, call_Flush, call_ProcessRecord in Hstep.
  destruct (_thread c) as [|cached|cached rt [|r records]| | |e] eqn:Hpc;
    repeat match type of Hstep with
           | context [match ?x with _ => _ end] => destruct x
           | context [if ?x then _ else _] => destruct x eqn:?
           end;
    inversion Hstep; subst c'; cbn;
    try (rewrite Hc; cbn; exists []; split; [reflexivity|intros []]);
    try (destruct Hc as (tr & Htr & Hno); rewrite Htr;
         first [ exists tr; split; [reflexivity|exact Hno]
               | rewrite <- app_assoc; eexists; split; [reflexivity|];
                 intros Hin; apply in_app_or in Hin;
                 destruct Hin as [Hin|[Hin|[]]]; [auto|discriminate] ]);
    try exact Hc;
    try (exists tr; split; [reflexivity|exact Hno]).
Qed.

Lemma step_initialized_once (a : Action) (c c' : Config) :
  initialized_once c -> step a c = Some c' -> initialized_once c'.
Proof.
  intros Hc Hstep. pose proof (step_alive _ _ _ Hstep) as Hal.
  destruct a.
  - rewrite step_ProcessRecord_enqueue in Hstep; auto.
    + inversion Hstep. unfold enqueue_logged, EnqueueRecord, Enqueue.
      destruct (is_full (_queue c)); exact Hc.
    + eapply step_producer_before_return; eauto; discriminate.
  - rewrite step_Flush_enqueue in Hstep; auto.
    + inversion Hstep. unfold enqueue_logged, EnqueueRecord, Enqueue.
      destruct (is_full (_queue c)); exact Hc.
    + eapply step_producer_before_return; eauto; discriminate.
  - rewrite step_thread in Hstep; auto.
    eapply thread_step_initialized_once; eauto.
  - unfold step in Hstep. rewrite Hal in Hstep. cbn in Hstep.
    destruct (destructor c); try discriminate. inversion Hstep.
    unfold destructor_enter, enqueue_logged, EnqueueRecord, Enqueue.
    destruct (is_full (_queue c)); exact Hc.
  - unfold step in Hstep. rewrite Hal in Hstep. cbn in Hstep.
    destruct (destructor c); try discriminate.
    unfold destructor_join in Hstep.
    destruct (thread_finished c); inversion Hstep. exact Hc.
Qed.

(** X10.  In every run of the processor the initialize handler, when it is
    valid, is called exactly once, and before any other call; when it is
    empty it is not called; before the thread's first statement no call
    has been made. *)
Lemma initialize_handler_called_first (c0 : Chain) (capacity initial : nat)
      (s : list Action) (c : Config) :
  exec s (AsyncWaitProcessor c0 capacity initial) = Some c ->
  initialized_once c.
Proof.
  assert (H0 : initialized_once (AsyncWaitProcessor c0 capacity initial))
    by reflexivity.
  revert H0. generalize (AsyncWaitProcessor c0 capacity initial).
  induction s as [|a s IH]; intros x Hx Hexec; cbn in Hexec.
  - inversion Hexec; subst; assumption.
  - destruct (step a x) as [x1|] eqn:Hstep; [|discriminate].
    apply (IH x1); auto. eapply step_initialized_once; eauto.
Qed.

(** Where a handler is called, an empty one makes the [assert] fail in a
    development build and is skipped in a production build. *)
Lemma empty_handler_asserts (msg : string) (e : Event) (next : ThreadPC)
      (c : Config) :
  ndebug = false ->
  call_handler EmptyHandler msg e next c =
  set_thread c (Exited (AssertionFailed msg)).
Proof. intros H. unfold call_handler. cbn. rewrite H. reflexivity. Qed.

Lemma empty_handler_skipped (msg : string) (e : Event) (next : ThreadPC)
      (c : Config) :
  ndebug = true ->
  call_handler EmptyHandler msg e next c = set_thread c next.
Proof. intros H. unfold call_handler. cbn. rewrite H. reflexivity. Qed.

(** The initialize handler is reached by every thread. *)
Lemma empty_initialize_handler (c : Config) :
  on_thread_initialize = EmptyHandler ->
  _thread c = AtInitialize ->
  step ActThread c =
  Some (set_thread c (if ndebug then AtDequeue 0
                      else Exited (AssertionFailed initialize_assertion))).
Proof.
  intros Hh Hpc. unfold step, alive, ProcessBufferedRecords_step, call_handler.
  rewrite Hpc, Hh. cbn. destruct ndebug; reflexivity.
Qed.

End DrainFacts.

(** ** Producer-facing operations *)

(** C5, in the form that holds of the code.  [ProcessRecord] forwards the record to [Enqueue] and
    returns its result.  [Flush] enqueues through the same path but is a
    [void] function: the caller receives nothing.  When the queue is full,
    [ProcessRecord] returns false, and after either call the queue is as it
    was: the record is dropped.  Both are plain values; nothing is thrown. *)
Theorem process_record_forwards (q : WaitQueue) (r : LogRecord) :
  ProcessRecord q r = Enqueue q r /\
  snd (Flush q) = snd (Enqueue q flush) /\
  returned_of_void (fst (Flush q)) = ReturnsNothing /\
  (is_full q = true ->
   returned_of_bool (fst (ProcessRecord q r)) = ReturnsBool false /\
   snd (ProcessRecord q r) = q /\
   snd (Flush q) = q).
Proof.
  unfold ProcessRecord, Flush, EnqueueRecord, Enqueue.
  destruct (is_full q); cbn; repeat split; auto; discriminate.
Qed.

Lemma process_record_forwards_witness :
  is_full full_queue = true /\
  returned_of_bool (fst (ProcessRecord full_queue (data 101))) =
    ReturnsBool false /\
  snd (ProcessRecord full_queue (data 101)) = full_queue /\
  snd (Flush full_queue) = full_queue.
Proof.
  split; [reflexivity|].
  apply (process_record_forwards full_queue (data 101)). reflexivity.
Defined.

(** On a full queue [Flush] does not return false to its caller: it
    returns nothing. *)
Lemma Flush_returns_nothing :
  is_full full_queue = true /\
  returned_of_void (fst (Flush full_queue)) <> ReturnsBool false.
Proof. split; [reflexivity|discriminate]. Qed.

(** ** The concrete run *)

Lemma scenario_fifth_record_rejected :
  fst (ProcessRecord
         (_queue (after (map ActProcessRecord scenario_records) scenario_start))
         (data 104)) = false.
Proof. vm_compute. reflexivity. Qed.

Lemma drain_before_exit_witness :
  exists c2,
    exec scenario_shutdown scenario_ready = Some c2 /\
    destructor c2 = DtorReturned /\
    admitted scenario_ready = scenario_records /\
    _thread c2 = Exited ThreadReturned /\
    (exists more,
        processed (trace c2) = data_records (admitted scenario_ready) ++ more) /\
    Forall (handled (trace c2)) (admitted scenario_ready) /\
    subsequence (batch_events (admitted scenario_ready)) (trace c2).
Proof.
  assert (Hfatal : faults_are_fatal (E := development))
    by (right; reflexivity).
  assert (Hprod : Forall producer_respects_stop scenario_producers)
    by (repeat constructor).
  assert (Hrun : exec scenario_producers
                   (AsyncWaitProcessor (E := development) tt 4 4)
                 = Some scenario_ready) by (vm_compute; reflexivity).
  assert (Hd : destructor scenario_ready = DtorNotStarted)
    by (vm_compute; reflexivity).
  assert (Hal : alive scenario_ready = true) by (vm_compute; reflexivity).
  assert (Hshut : exec scenario_shutdown scenario_ready
                  = Some (after scenario_shutdown scenario_ready))
    by (vm_compute; reflexivity).
  assert (Hret : destructor (after scenario_shutdown scenario_ready)
                 = DtorReturned) by (vm_compute; reflexivity).
  exists (after scenario_shutdown scenario_ready).
  split; [exact Hshut|]. split; [exact Hret|].
  split; [vm_compute; reflexivity|].
  exact (proj1 (proj2
    (drain_before_exit (E := development) tt 4%nat 4%nat scenario_producers
       scenario_ready Hfatal Hprod Hrun Hd Hal))
    (thread_steps 7 ++ [ActJoin]) _ Hshut Hret).
Defined.

(** C2.  On the code, the cleanup handler is not called when the loop ends
    normally.  In the concrete run (valid handlers, a chain that never
    throws) the thread meets the stop record and returns, [join] completes,
    and the calls made are the initialize handler followed by the four
    records: there is no call of the cleanup handler.  Likewise when
    [Dequeue] reports a closed queue: the thread returns without a call. *)
Theorem cleanup_handler_not_called_on_normal_exit :
  (exists c,
      exec (scenario_producers ++ scenario_shutdown) scenario_start = Some c /\
      _thread c = Exited ThreadReturned /\
      destructor c = DtorReturned /\
      trace c = EvInitialize :: map EvProcessRecord scenario_records /\
      ~ In EvCleanup (trace c)) /\
  (exists c,
      exec [ActThread] (config_on_closed_queue (E := development) tt 0)
      = Some c /\
      _thread c = Exited ThreadReturned /\
      trace c = [EvInitialize] /\
      step ActThread c = None).
Proof.
  split.
  - exists (after (scenario_producers ++ scenario_shutdown) scenario_start).
    split; [vm_compute; reflexivity|].
    split; [vm_compute; reflexivity|].
    split; [vm_compute; reflexivity|].
    split; [vm_compute; reflexivity|].
    vm_compute. intros H.
    repeat (destruct H as [H|H]; [discriminate H|]). exact H.
  - eexists. split; [vm_compute; reflexivity|].
    repeat split; reflexivity.
Qed.

(** C8.  On the code, an empty cleanup handler raises no assertion in a
    development build when the loop ends normally: in the concrete run
    with an empty cleanup handler the thread returns, exactly as with a
    valid one, and [join] completes. *)
Theorem empty_cleanup_handler_not_asserted :
  ndebug (Environment := development_without_cleanup) = false /\
  on_thread_clenup (Environment := development_without_cleanup)
  = EmptyHandler /\
  exists c,
    exec (E := development_without_cleanup)
      (scenario_producers ++ scenario_shutdown)
      (AsyncWaitProcessor (E := development_without_cleanup) tt 4 4)
    = Some c /\
    _thread c = Exited ThreadReturned /\
    destructor c = DtorReturned /\
    trace c = EvInitialize :: map EvProcessRecord scenario_records.
Proof.
  split; [reflexivity|]. split; [reflexivity|].
  eexists. split; [vm_compute; reflexivity|].
  repeat split; reflexivity.
Qed.

(** ** Instances *)

Lemma development_never_throws : chain_never_throws (E := development).
Proof. split; intros; discriminate. Qed.

Lemma stop_is_terminal_witness :
  exists c',
    exec (thread_steps 2)
      (config_in_batch (E := development) tt 0 0 [data 100; stop; data 101])
    = Some c' /\
    _thread c' = Exited ThreadReturned /\
    trace c' = [EvInitialize] ++ batch_events [data 100] /\
    step ActThread c' = None /\
    forall s c'',
      exec s c' = Some c'' ->
      _thread c'' = Exited ThreadReturned /\
      trace c'' = [EvInitialize] ++ batch_events [data 100] /\
      chain c'' = tt.
Proof.
  apply (stop_is_terminal (E := development)
           (config_in_batch (E := development) tt 0 0
                            [data 100; stop; data 101])
           0 0 [data 100] [data 101] stop tt).
  - reflexivity.
  - repeat constructor.
  - reflexivity.
  - reflexivity.
Defined.

Lemma flush_record_protocol_witness :
  timestamp flush = 1 /\
  (forall q, Flush q = (tt, snd (EnqueueRecord q flush)) /\
             snd (Flush q) = snd (ProcessRecord q flush)) /\
  (forall q, is_full q = false ->
             items (snd (Flush q)) = items q ++ [flush] /\
             capacity (snd (Flush q)) = capacity q /\
             closed (snd (Flush q)) = closed q) /\
  (forall q, is_full q = true -> snd (Flush q) = q) /\
  exists c',
    step ActThread
      (config_in_batch (E := development) tt 0 0 [flush; data 100])
    = Some c' /\
    _thread c' = InBatch 0 0 [data 100] /\
    trace c' = [EvInitialize] ++ [EvFlush] /\
    chain c' = tt /\
    same_outside_thread
      (config_in_batch (E := development) tt 0 0 [flush; data 100]) c'.
Proof.
  apply (flush_record_protocol (E := development)
           (config_in_batch (E := development) tt 0 0 [flush; data 100])
           0 0 flush [data 100] tt); reflexivity.
Defined.

Lemma consumer_fault_escalates_witness :
  (exists c1,
      exec (thread_steps 2)
        (config_in_batch (E := poisoned) tt 0 0 [poison; data 100])
      = Some c1 /\
      trace c1 =
        [EvInitialize] ++
        [EvProcessRecord poison; EvFatality fatality_message] /\
      _thread c1 = Exited (FatalAbort fatality_message) /\
      forall a, step a c1 = None) /\
  (exists c1 c2,
      exec (thread_steps 2)
        (config_in_batch (E := returning_fatality) tt 0 0 [poison; data 100])
      = Some c1 /\
      _thread c1 = AtCleanup /\
      step ActThread c1 = Some c2 /\
      trace c2 = trace c1 ++ [EvCleanup] /\
      _thread c2 = Exited ThreadReturned).
Proof.
  split.
  - destruct (consumer_fault_escalates (E := poisoned)
                (config_in_batch (E := poisoned) tt 0 0 [poison; data 100])
                (EvProcessRecord poison) eq_refl eq_refl)
      as (c1 & H1 & H2 & H3 & H4 & H5 & H6 & H7).
    exists c1. split; [exact H1|]. split; [exact H2|].
    split; [exact H4|]. exact (H6 eq_refl).
  - destruct (consumer_fault_escalates (E := returning_fatality)
                (config_in_batch (E := returning_fatality) tt 0 0
                                 [poison; data 100])
                (EvProcessRecord poison) eq_refl eq_refl)
      as (c1 & H1 & H2 & H3 & H4 & H5 & H6 & H7).
    destruct (H7 eq_refl eq_refl) as (c2 & G1 & G2 & G3).
    exists c1, c2. split; [exact H1|]. split; [exact H4|]. auto.
Defined.

(** With a [fatality] that returns, the cleanup handler is called right
    after the escalation, and the thread returns. *)
Lemma cleanup_called_after_escalation :
  fatality_returns (Environment := returning_fatality) = true /\
  exists c,
    exec (E := returning_fatality) poisoned_run
      (AsyncWaitProcessor (E := returning_fatality) tt 4 4) = Some c /\
    trace c =
      [EvInitialize; EvProcessRecord poison;
       EvFatality fatality_message; EvCleanup] /\
    _thread c = Exited ThreadReturned.
Proof.
  split; [reflexivity|].
  eexists. split; [vm_compute; reflexivity|]. split; reflexivity.
Qed.

Lemma destructor_ignores_enqueue_result_witness :
  is_full (_queue (after (map ActProcessRecord scenario_records)
                     scenario_start)) = true /\
  step ActDestroy (after (map ActProcessRecord scenario_records) scenario_start)
  = Some (destructor_enter
            (after (map ActProcessRecord scenario_records) scenario_start)) /\
  destructor (destructor_enter
                (after (map ActProcessRecord scenario_records) scenario_start))
  = DtorJoining /\
  _queue (destructor_enter
            (after (map ActProcessRecord scenario_records) scenario_start))
  = _queue (after (map ActProcessRecord scenario_records) scenario_start).
Proof.
  assert (Hfull : is_full (_queue (after (map ActProcessRecord scenario_records)
                                     scenario_start)) = true)
    by (vm_compute; reflexivity).
  assert (Hal : alive (after (map ActProcessRecord scenario_records)
                         scenario_start) = true)
    by (vm_compute; reflexivity).
  assert (Hd : destructor (after (map ActProcessRecord scenario_records)
                             scenario_start) = DtorNotStarted)
    by (vm_compute; reflexivity).
  destruct (destructor_ignores_enqueue_result (E := development)
              (after (map ActProcessRecord scenario_records) scenario_start)
              Hal Hd) as (H1 & H2 & _ & H4 & _).
  split; [exact Hfull|]. split; [exact H1|]. split; [exact H2|].
  exact (proj1 (proj2 (H4 Hfull))).
Defined.

(** With each of the three records in a batch of its own, a fresh thread
    flushes between the first and the second record and not at the third;
    a thread that has cached a timestamp a tenth of a second before [t0]
    does not flush at all.  This is so with whole seconds and with started
    seconds. *)
Lemma auto_flush_compares_consecutive_batches :
  (exists c,
      exec fresh_thread_one_by_one scenario_start = Some c /\
      trace c =
        [EvInitialize;
         EvProcessRecord (data ten_seconds);
         EvFlush;
         EvProcessRecord (data (ten_seconds + half_second));
         EvProcessRecord (data (ten_seconds + 3 * half_second))]) /\
  (exists c,
      exec warm_thread_one_by_one scenario_start = Some c /\
      trace c =
        [EvInitialize;
         EvProcessRecord (data (ten_seconds - 100000000));
         EvFlush;
         EvProcessRecord (data ten_seconds);
         EvProcessRecord (data (ten_seconds + half_second));
         EvProcessRecord (data (ten_seconds + 3 * half_second))]) /\
  (exists c,
      exec fresh_thread_one_by_one started_start = Some c /\
      trace c =
        [EvInitialize;
         EvProcessRecord (data ten_seconds);
         EvFlush;
         EvProcessRecord (data (ten_seconds + half_second));
         EvProcessRecord (data (ten_seconds + 3 * half_second))]) /\
  (exists c,
      exec warm_thread_one_by_one started_start = Some c /\
      trace c =
        [EvInitialize;
         EvProcessRecord (data (ten_seconds - 100000000));
         EvFlush;
         EvProcessRecord (data ten_seconds);
         EvProcessRecord (data (ten_seconds + half_second));
         EvProcessRecord (data (ten_seconds + 3 * half_second))]).
Proof.
  split; [|split; [|split]];
    eexists; (split; [vm_compute; reflexivity|reflexivity]).
Qed.

Lemma auto_flush_policy_witness :
  (exists c',
      exec (thread_steps (3 + 2))
        (config_at_dequeue (E := development) tt 0
                           [data 100; flush; data ten_seconds])
      = Some c' /\
      _thread c' = AtDequeue ten_seconds /\
      trace c' =
        [EvInitialize; EvProcessRecord (data 100); EvFlush;
         EvProcessRecord (data ten_seconds); EvFlush]) /\
  (exists c',
      exec (one_by_one (data ten_seconds) (data (ten_seconds + half_second))
                       (data (ten_seconds + 3 * half_second)))
        (config_at_dequeue (E := development) tt 0 []) = Some c' /\
      _thread c' = AtDequeue (ten_seconds + 3 * half_second) /\
      trace c' =
        [EvInitialize; EvProcessRecord (data ten_seconds); EvFlush;
         EvProcessRecord (data (ten_seconds + half_second));
         EvProcessRecord (data (ten_seconds + 3 * half_second))]).
Proof.
  destruct (auto_flush_policy (E := development)) as (Ha & _ & Hc).
  split.
  - apply (Ha (config_at_dequeue (E := development) tt 0
                 [data 100; flush; data ten_seconds]) 0 tt).
    + reflexivity.
    + discriminate.
    + repeat constructor.
    + vm_compute. reflexivity.
  - destruct (Hc (config_at_dequeue (E := development) tt 0 []) 0
                (data ten_seconds) (data (ten_seconds + half_second))
                (data (ten_seconds + 3 * half_second)))
      as (c' & H1 & H2 & _ & H4).
    + exact development_never_throws.
    + reflexivity.
    + reflexivity.
    + cbn. lia.
    + discriminate.
    + vm_compute. discriminate.
    + vm_compute. discriminate.
    + vm_compute. discriminate.
    + exists c'. split; [exact H1|]. split; [exact H2|].
      rewrite H4; vm_compute; reflexivity.
Defined.

(** A batch timestamp of three seconds behind a cached timestamp of
    [2^64 - 1]: the difference modulo [2^64] is three seconds and one
    nanosecond, and the flush is called, with whole seconds and with
    started seconds. *)
Lemma backward_time_triggers_flush :
  is_uint64 uint64_max /\ is_uint64 (6 * half_second) /\
  6 * half_second < uint64_max /\
  auto_flush_due (E := development) uint64_max (6 * half_second) = true /\
  (exists c,
    exec backward_run scenario_start = Some c /\
    trace c =
      [EvInitialize;
       EvProcessRecord (data uint64_max);
       EvProcessRecord (data (6 * half_second));
       EvFlush]) /\
  auto_flush_due (E := development_started) uint64_max (6 * half_second)
  = true /\
  (exists c,
    exec backward_run started_start = Some c /\
    trace c =
      [EvInitialize;
       EvProcessRecord (data uint64_max);
       EvProcessRecord (data (6 * half_second));
       EvFlush]).
Proof.
  split; [unfold is_uint64; vm_compute; split; [discriminate|reflexivity]|].
  split; [unfold is_uint64; vm_compute; split; [discriminate|reflexivity]|].
  split; [vm_compute; reflexivity|].
  split; [vm_compute; reflexivity|].
  split; [eexists; split; [vm_compute; reflexivity|reflexivity]|].
  split; [vm_compute; reflexivity|].
  eexists; split; [vm_compute; reflexivity|reflexivity].
Qed.

Lemma flush_only_batch_and_backward_time_witness :
  (exists c',
      exec (thread_steps (2 + 2))
        (config_at_dequeue (E := development) tt ten_seconds [flush; flush])
      = Some c' /\
      _thread c' = AtDequeue 0) /\
  auto_flush_due (E := development) ten_seconds half_second = false.
Proof.
  destruct (flush_only_batch_and_backward_time (E := development))
    as (Ha & _ & Hc).
  split.
  - apply (Ha (config_at_dequeue (E := development) tt ten_seconds
                 [flush; flush]) ten_seconds tt).
    + reflexivity.
    + discriminate.
    + repeat constructor.
    + vm_compute. reflexivity.
  - apply (Hc ten_seconds half_second).
    + unfold is_uint64. vm_compute. split; [discriminate|reflexivity].
    + unfold is_uint64. vm_compute. split; [discriminate|reflexivity].
    + vm_compute. reflexivity.
    + vm_compute. discriminate.
Defined.

(** ** Order of the calls in every run *)

Section RunFacts.

Context {E : Environment}.

Lemma seen_step_same (c c' : Config) (pending : list LogRecord) :
  seen_prefix c pending ->
  trace c' = trace c -> admitted c' = admitted c ->
  seen_prefix c' pending.
Proof.
  intros (h & Hn & Hp & Hs & Ha) Ht Had.
  exists h. rewrite Ht, Had. auto.
Qed.

Lemma seen_step_other (c c' : Config) (pending : list LogRecord) (e : Event) :
  seen_prefix c pending ->
  trace c' = trace c ++ [e] -> processed [e] = [] ->
  admitted c' = admitted c ->
  seen_prefix c' pending.
Proof.
  intros (h & Hn & Hp & Hs & Ha) Ht He Had.
  exists h. rewrite Ht, Had. split; [assumption|]. split; [|split].
  - rewrite processed_app, He, app_nil_r. exact Hp.
  - apply subsequence_app_r. exact Hs.
  - exact Ha.
Qed.

Lemma seen_step_record (c c' : Config) (r : LogRecord)
      (pending : list LogRecord) :
  seen_prefix c (r :: pending) ->
  is_stop r = false ->
  trace c' = trace c ++ [if is_flush r then EvFlush else EvProcessRecord r] ->
  admitted c' = admitted c ->
  seen_prefix c' pending.
Proof.
  intros (h & Hn & Hp & Hs & Ha) Hr Ht Had.
  exists (h ++ [r]). rewrite Ht, Had. split; [|split; [|split]].
  - apply no_stop_app. split; auto. constructor; auto.
  - rewrite processed_app, data_records_app, Hp. cbn.
    destruct (is_flush r); reflexivity.
  - unfold batch_events. rewrite map_app. cbn.
    apply subsequence_snoc. exact Hs.
  - rewrite Ha, <- app_assoc. reflexivity.
Qed.

Lemma seen_prefix_enqueue (c c' : Config) (pending : list LogRecord)
      (r : LogRecord) :
  seen_prefix c pending ->
  trace c' = trace c -> admitted c' = admitted c ++ [r] ->
  seen_prefix c' (pending ++ [r]).
Proof.
  intros (h & Hn & Hp & Hs & Ha) Ht Had.
  exists h. rewrite Ht, Had, Ha, app_assoc. auto.
Qed.

Lemma order_invariant_init (c0 : Chain) (capacity initial : nat) :
  order_invariant (AsyncWaitProcessor c0 capacity initial).
Proof.
  split; [discriminate|]. cbn. exists []. cbn.
  repeat split; constructor.
Qed.

Lemma thread_step_order_invariant (c c' : Config) :
  order_invariant c -> ProcessBufferedRecords_step c = Some c' ->
  order_invariant c'.
Proof.
  intros (Hdtor & Hpc) Hstep.
  assert (Hnd : destructor c <> DtorReturned).
  { intro Hd. apply Hdtor in Hd. unfold ProcessBufferedRecords_step in Hstep.
    rewrite Hd in Hstep. discriminate. }
  unfold ProcessBufferedRecords_step in Hstep.
  destruct (_thread c) as [|cached|cached rt records| | |e] eqn:Hthread.
  - (* AtInitialize *)
    inversion Hstep; subst c'. unfold call_handler.
    destruct (handler_valid on_thread_initialize); [|destruct ndebug];
      (split; [cbn; intro; congruence|]); cbn.
    + eapply seen_step_other; eauto; reflexivity.
    + eapply seen_step_same; eauto; reflexivity.
    + eexists. eapply seen_step_same; eauto; reflexivity.
  - (* AtDequeue *)
    unfold Dequeue in Hstep.
    destruct (items (_queue c)) as [|r l] eqn:Hitems.
    + destruct (closed (_queue c)); [|discriminate].
      inversion Hstep; subst c'. split; [cbn; intro; congruence|]. cbn.
      eexists. eapply seen_step_same; eauto; reflexivity.
    + inversion Hstep; subst c'. split; [cbn; intro; congruence|]. cbn.
      rewrite app_nil_r. eapply seen_step_same; eauto; reflexivity.
  - (* InBatch *)
    destruct records as [|r records].
    + cbn [app] in Hpc.
      destruct (auto_flush_due cached rt); inversion Hstep; subst c'.
      * unfold call_Flush. destruct (Processor_Flush (chain c));
          (split; [cbn; intro; congruence|]); cbn.
        -- eapply seen_step_other; eauto; reflexivity.
        -- eexists. eapply seen_step_other; eauto; reflexivity.
      * split; [cbn; intro; congruence|]. cbn.
        eapply seen_step_same; eauto; reflexivity.
    + cbn [app] in Hpc. destruct (is_stop r) eqn:Hstop.
      * inversion Hstep; subst c'. split; [cbn; intro; congruence|]. cbn.
        eexists. eapply seen_step_same; eauto; reflexivity.
      * destruct (is_flush r) eqn:Hflush; inversion Hstep; subst c'.
        -- unfold call_Flush. destruct (Processor_Flush (chain c));
             (split; [cbn; intro; congruence|]); cbn;
             [|eexists];
             (eapply seen_step_record;
              [exact Hpc|exact Hstop|cbn; rewrite Hflush; reflexivity
              |reflexivity]).
        -- unfold call_ProcessRecord.
           destruct (Processor_ProcessRecord (chain c) r);
             (split; [cbn; intro; congruence|]); cbn;
             [|eexists];
             (eapply seen_step_record;
              [exact Hpc|exact Hstop|cbn; rewrite Hflush; reflexivity
              |reflexivity]).
  - (* AtCatch *)
    inversion Hstep; subst c'. destruct Hpc as [pending Hpc].
    destruct fatality_returns; (split; [cbn; intro; congruence|]); cbn;
      exists pending; eapply seen_step_other; eauto; reflexivity.
  - (* AtCleanup *)
    inversion Hstep; subst c'. destruct Hpc as [pending Hpc].
    unfold call_handler.
    destruct (handler_valid on_thread_clenup); [|destruct ndebug];
      (split; [cbn; intro; congruence|]); cbn; exists pending.
    + eapply seen_step_other; eauto; reflexivity.
    + eapply seen_step_same; eauto; reflexivity.
    + eapply seen_step_same; eauto; reflexivity.
  - discriminate.
Qed.

Lemma enqueue_logged_order_invariant (c : Config) (r : LogRecord) :
  order_invariant c -> order_invariant (enqueue_logged c r).
Proof.
  intros (Hdtor & Hpc).
  unfold enqueue_logged, EnqueueRecord, Enqueue.
  destruct (is_full (_queue c)).
  - split; [exact Hdtor|]. cbn.
    destruct (_thread c) as [| | | | |x];
      try (eapply seen_step_same; eauto; reflexivity);
      destruct Hpc as [pending Hpc]; exists pending;
      eapply seen_step_same; eauto; reflexivity.
  - split; [exact Hdtor|]. cbn.
    destruct (_thread c) as [|cached|cached rt records| | |x].
    + eapply seen_prefix_enqueue; eauto; reflexivity.
    + eapply seen_prefix_enqueue; eauto; reflexivity.
    + rewrite app_assoc. eapply seen_prefix_enqueue; eauto; reflexivity.
    + destruct Hpc as [pending Hpc]. eexists.
      eapply seen_prefix_enqueue; eauto; reflexivity.
    + destruct Hpc as [pending Hpc]. eexists.
      eapply seen_prefix_enqueue; eauto; reflexivity.
    + destruct Hpc as [pending Hpc]. eexists.
      eapply seen_prefix_enqueue; eauto; reflexivity.
Qed.

Lemma step_order_invariant (a : Action) (c c' : Config) :
  order_invariant c -> step a c = Some c' -> order_invariant c'.
Proof.
  intros Hinv Hstep.
  pose proof (step_alive _ _ _ Hstep) as Hal.
  destruct a.
  - rewrite step_ProcessRecord_enqueue in Hstep; auto.
    + inversion Hstep. apply enqueue_logged_order_invariant; auto.
    + eapply step_producer_before_return; eauto; discriminate.
  - rewrite step_Flush_enqueue in Hstep; auto.
    + inversion Hstep. apply enqueue_logged_order_invariant; auto.
    + eapply step_producer_before_return; eauto; discriminate.
  - rewrite step_thread in Hstep; auto.
    eapply thread_step_order_invariant; eauto.
  - unfold step in Hstep. rewrite Hal in Hstep. cbn in Hstep.
    destruct (destructor c) eqn:Hd; try discriminate.
    inversion Hstep; subst c'. unfold destructor_enter.
    pose proof (enqueue_logged_order_invariant c stop Hinv) as (H1 & H2).
    split; [cbn; discriminate|]. exact H2.
  - unfold step in Hstep. rewrite Hal in Hstep. cbn in Hstep.
    destruct (destructor c) eqn:Hd; try discriminate.
    unfold destructor_join, thread_finished in Hstep.
    destruct Hinv as (H1 & H2).
    destruct (_thread c) as [| | | | |[| |]] eqn:Ht; try discriminate.
    inversion Hstep; subst c'.
    split; [cbn; auto|]. cbn. rewrite Ht. exact H2.
Qed.

Lemma exec_order_invariant (s : list Action) (c c' : Config) :
  order_invariant c -> exec s c = Some c' -> order_invariant c'.
Proof.
  revert c. induction s as [|a s IH]; intros c Hinv Hexec; cbn in Hexec.
  - inversion Hexec; subst; assumption.
  - destruct (step a c) as [c1|] eqn:Hstep; [|discriminate].
    apply (IH c1); auto. eapply step_order_invariant; eauto.
Qed.

Lemma order_invariant_seen (c : Config) :
  order_invariant c -> exists pending, seen_prefix c pending.
Proof.
  intros (_ & Hpc). destruct (_thread c); eauto.
Qed.

(** X1.  In every run, whatever the chain and [fatality] do, the records
    passed to [Processor::ProcessRecord] are the data records of a prefix
    [h] of the admitted records, in the order of their admission, each
    once; [h] holds no stop record; and the calls made for the records of
    [h], the flush calls for its flush records among them, appear in the
    order of [h]. *)
Theorem chain_sees_admitted_in_order (c0 : Chain) (capacity initial : nat)
        (s : list Action) (c : Config) :
  exec s (AsyncWaitProcessor c0 capacity initial) = Some c ->
  exists h pending,
    admitted c = h ++ pending /\
    no_stop h /\
    processed (trace c) = data_records h /\
    subsequence (batch_events h) (trace c).
Proof.
  intros Hexec.
  destruct (order_invariant_seen c) as (pending & h & Hn & Hp & Hs & Ha).
  { eapply exec_order_invariant; eauto. apply order_invariant_init. }
  exists h, pending. auto.
Qed.

(** X2.  In every run, a record passed to [Processor::ProcessRecord] was
    accepted by the queue before, and its timestamp is neither 0 nor 1:
    rejected records and records with a reserved timestamp never reach
    that operation, whoever enqueued them. *)
Theorem chain_never_sees_reserved_or_rejected (c0 : Chain)
        (capacity initial : nat) (s : list Action) (c : Config)
        (r : LogRecord) :
  exec s (AsyncWaitProcessor c0 capacity initial) = Some c ->
  In (EvProcessRecord r) (trace c) ->
  In r (admitted c) /\ timestamp r <> 0 /\ timestamp r <> 1.
Proof.
  intros Hexec Hin.
  destruct (order_invariant_seen c) as (pending & h & Hn & Hp & Hs & Ha).
  { eapply exec_order_invariant; eauto. apply order_invariant_init. }
  assert (Hr : In r (data_records h)).
  { rewrite <- Hp. unfold processed. apply in_flat_map.
    exists (EvProcessRecord r). split; [exact Hin|left; reflexivity]. }
  apply filter_In in Hr. destruct Hr as [Hh Hf].
  split; [rewrite Ha; apply in_or_app; auto|].
  split.
  - unfold no_stop in Hn. rewrite Forall_forall in Hn.
    specialize (Hn r Hh). unfold is_stop in Hn. apply Z.eqb_neq. exact Hn.
  - unfold is_flush in Hf. apply Z.eqb_neq.
    destruct (timestamp r =? 1); [discriminate|reflexivity].
Qed.

(** ** The queue and the batch buffer stay within the capacity *)

Lemma enqueue_logged_within_capacity (n : nat) (c : Config) (r : LogRecord) :
  within_capacity n c -> within_capacity n (enqueue_logged c r).
Proof.
  intros (Hcap & Hlen & Hpc).
  unfold enqueue_logged, EnqueueRecord, Enqueue, is_full.
  destruct (capacity (_queue c) <=? length (items (_queue c)))%nat eqn:Hfull.
  - split; [exact Hcap|]. split; [exact Hlen|exact Hpc].
  - apply Nat.leb_gt in Hfull.
    split; [exact Hcap|]. split; [|exact Hpc].
    cbn. rewrite length_app. cbn. lia.
Qed.

Lemma thread_step_within_capacity (n : nat) (c c' : Config) :
  within_capacity n c -> ProcessBufferedRecords_step c = Some c' ->
  within_capacity n c'.
Proof.
  intros (Hcap & Hlen & Hpc) Hstep.
  unfold ProcessBufferedRecords_step in Hstep.
  destruct (_thread c) as [|cached|cached rt [|r records]| | |e] eqn:Hthread.
  - inversion Hstep; subst c'. unfold call_handler.
    destruct (handler_valid on_thread_initialize); [|destruct ndebug];
      repeat split; cbn; auto.
  - unfold Dequeue in Hstep.
    destruct (items (_queue c)) as [|r l] eqn:Hitems.
    + destruct (closed (_queue c)); inversion Hstep; subst c'.
      repeat split; cbn; auto. rewrite Hitems. cbn. lia.
    + inversion Hstep; subst c'. repeat split; cbn; auto; lia.
  - destruct (auto_flush_due cached rt); inversion Hstep; subst c';
      unfold call_Flush; try destruct (Processor_Flush (chain c));
      repeat split; cbn; auto.
  - cbn in Hpc.
    destruct (is_stop r); [|destruct (is_flush r)];
      inversion Hstep; subst c';
      unfold call_Flush, call_ProcessRecord;
      try destruct (Processor_Flush (chain c));
      try destruct (Processor_ProcessRecord (chain c) r);
      repeat split; cbn; auto; lia.
  - inversion Hstep; subst c'.
    destruct fatality_returns; repeat split; cbn; auto.
  - inversion Hstep; subst c'. unfold call_handler.
    destruct (handler_valid on_thread_clenup); [|destruct ndebug];
      repeat split; cbn; auto.
  - discriminate.
Qed.

Lemma step_within_capacity (n : nat) (a : Action) (c c' : Config) :
  within_capacity n c -> step a c = Some c' -> within_capacity n c'.
Proof.
  intros Hinv Hstep.
  pose proof (step_alive _ _ _ Hstep) as Hal.
  destruct a.
  - rewrite step_ProcessRecord_enqueue in Hstep; auto.
    + inversion Hstep. apply enqueue_logged_within_capacity; auto.
    + eapply step_producer_before_return; eauto; discriminate.
  - rewrite step_Flush_enqueue in Hstep; auto.
    + inversion Hstep. apply enqueue_logged_within_capacity; auto.
    + eapply step_producer_before_return; eauto; discriminate.
  - rewrite step_thread in Hstep; auto.
    eapply thread_step_within_capacity; eauto.
  - unfold step in Hstep. rewrite Hal in Hstep. cbn in Hstep.
    destruct (destructor c) eqn:Hd; try discriminate.
    inversion Hstep; subst c'. unfold destructor_enter.
    exact (enqueue_logged_within_capacity n c stop Hinv).
  - unfold step in Hstep. rewrite Hal in Hstep. cbn in Hstep.
    destruct (destructor c) eqn:Hd; try discriminate.
    unfold destructor_join in Hstep.
    destruct (thread_finished c); inversion Hstep; subst c'. exact Hinv.
Qed.

(** X3.  In every run the queue keeps the capacity it was created with and
    never holds more records than that, and the batch the thread works on
    never has more records than the capacity: the buffer reserved with
    [records.reserve(_queue.capacity())] is never outgrown. *)
Theorem batch_fits_reserved_buffer (c0 : Chain) (capacity0 initial : nat)
        (s : list Action) (c : Config) :
  exec s (AsyncWaitProcessor c0 capacity0 initial) = Some c ->
  capacity (_queue c) = capacity0 /\
  (length (items (_queue c)) <= capacity0)%nat /\
  forall cached rt records,
    _thread c = InBatch cached rt records ->
    (length records <= capacity0)%nat.
Proof.
  intros Hexec.
  assert (Hinv : within_capacity capacity0 c).
  { revert Hexec.
    assert (H0 : within_capacity capacity0
                   (AsyncWaitProcessor c0 capacity0 initial)).
    { repeat split; cbn; lia. }
    revert H0. generalize (AsyncWaitProcessor c0 capacity0 initial).
    induction s as [|a s IH]; intros x Hx Hexec; cbn in Hexec.
    - inversion Hexec; subst; assumption.
    - destruct (step a x) as [x1|] eqn:Hstep; [|discriminate].
      apply (IH x1); auto. eapply step_within_capacity; eauto. }
  destruct Hinv as (H1 & H2 & H3).
  split; [exact H1|]. split; [exact H2|].
  intros cached rt records Hpc. rewrite Hpc in H3. exact H3.
Qed.

(** ** The thread catches up with the producers *)

Lemma catch_up_from_dequeue (c : Config) (cached : Z) :
  chain_never_throws ->
  _thread c = AtDequeue cached ->
  no_stop (items (_queue c)) ->
  closed (_queue c) = false ->
  exists n c',
    exec (thread_steps n) c = Some c' /\
    waiting c' /\
    destructor c' = destructor c /\ admitted c' = admitted c.
Proof.
  intros Hsafe Hpc Hn Hclosed.
  destruct (items (_queue c)) as [|r l] eqn:Hitems.
  - exists 0%nat, c. cbn. unfold waiting. rewrite Hitems. eauto 10.
  - destruct (chain_calls_never_throws
                (batch_events (items (_queue c)) ++
                 if auto_flush_due cached
                      (max_data_timestamp (items (_queue c)))
                 then [EvFlush] else []) (chain c) Hsafe) as [d' Hd'].
    destruct (whole_batch c cached d')
      as (c' & H1 & H2 & H3 & H4 & H5 & H6 & H7 & H8 & H9); auto.
    { rewrite Hitems. discriminate. }
    { rewrite Hitems. exact Hn. }
    exists (length (items (_queue c)) + 2)%nat, c'.
    split; [exact H1|]. split; [|auto].
    unfold waiting. rewrite H5, H7, Hclosed. eauto.
Qed.

(** X4.  Without shutdown, the thread left to run catches up with the
    producers.  From any configuration reached while the producers keep to
    data timestamps and the destructor has not been entered, with a chain
    that never throws and an initialize handler that passes, finitely many
    statements of the thread lead to a configuration in which it waits in
    [Dequeue] on an empty queue and every admitted record has reached the
    chain: the trace holds a call of its own for each of them, a
    [Processor::Flush] for a flush record and a [Processor::ProcessRecord]
    for any other, these calls in the order of admission. *)
Theorem thread_catches_up (c0 : Chain) (capacity initial : nat)
        (s : list Action) (c : Config) :
  chain_never_throws -> initialize_passes ->
  Forall producer_respects_stop s ->
  exec s (AsyncWaitProcessor c0 capacity initial) = Some c ->
  destructor c = DtorNotStarted ->
  alive c = true ->
  exists n c',
    exec (thread_steps n) c = Some c' /\
    waiting c' /\
    step ActThread c' = None /\
    processed (trace c') = data_records (admitted c) /\
    Forall (handled (trace c')) (admitted c) /\
    subsequence (batch_events (admitted c)) (trace c').
Proof.
  intros Hsafe Hinit Hs Hexec Hd Hal.
  assert (Hfatal : faults_are_fatal) by (left; exact Hsafe).
  assert (Hinv : drain_invariant c).
  { eapply exec_invariant; eauto. apply drain_invariant_init. }
  assert (Hns : no_stop (admitted c)).
  { eapply exec_no_stop; eauto. intros _. constructor. }
  assert (Hnf : faulted c = false).
  { apply (exec_not_faulted s (AsyncWaitProcessor c0 capacity initial) c);
      auto. }
  pose proof (pending_no_stop c Hinv Hns Hnf Hal) as Hpend.
  assert (Hclosed : closed (_queue c) = false) by apply Hinv.
  assert (Hrun : exists n c',
             exec (thread_steps n) c = Some c' /\ waiting c' /\
             destructor c' = destructor c /\ admitted c' = admitted c).
  { destruct (_thread c) as [|cached|cached rt records| | |[| |]] eqn:Hpc;
      try (unfold faulted in Hnf; rewrite Hpc in Hnf; discriminate);
      try (unfold alive in Hal; rewrite Hpc in Hal; discriminate).
    - (* AtInitialize *)
      assert (Hstep : exists c1, step ActThread c = Some c1 /\
                _thread c1 = AtDequeue 0 /\ _queue c1 = _queue c /\
                destructor c1 = destructor c /\ admitted c1 = admitted c).
      { rewrite step_thread by assumption.
        unfold ProcessBufferedRecords_step. rewrite Hpc.
        eexists. split; [reflexivity|]. unfold call_handler.
        destruct Hinit as [Hv|Hnd].
        - rewrite Hv. cbn. auto.
        - rewrite Hnd. destruct (handler_valid on_thread_initialize);
            cbn; auto. }
      destruct Hstep as (c1 & H1 & H2 & H3 & H4 & H5).
      destruct (catch_up_from_dequeue c1 0 Hsafe H2)
        as (n & c2 & G1 & G2 & G3 & G4); try (rewrite H3; assumption).
      exists (1 + n)%nat, c2. split.
      + apply exec_thread_steps_add with (c1 := c1); auto.
        cbn. rewrite H1. reflexivity.
      + repeat split; try apply G2; congruence.
    - (* AtDequeue *)
      apply (catch_up_from_dequeue c cached); auto.
    - (* InBatch *)
      apply no_stop_app in Hpend. destruct Hpend as [Hrec Hq].
      destruct (chain_calls_never_throws
                  (batch_events records ++
                   if auto_flush_due cached (batch_timestamp rt records)
                   then [EvFlush] else []) (chain c) Hsafe) as [d' Hd'].
      destruct (finish_batch records c cached rt d' Hpc Hrec Hd')
        as (c1 & H1 & H2 & H3 & H4 & H5 & H6 & H7).
      destruct (catch_up_from_dequeue c1 _ Hsafe H2)
        as (n & c2 & G1 & G2 & G3 & G4); try (rewrite H5; assumption).
      exists ((length records + 1) + n)%nat, c2. split.
      + eapply exec_thread_steps_add; eauto.
      + repeat split; try apply G2; congruence.
    - (* returned: there is a stop record in the history *)
      exfalso. destruct Hinv as (_ & _ & Hret). rewrite Hpc in Hret.
      destruct Hret as (h & r & post & _ & _ & Hr & Ha).
      rewrite Ha in Hns. apply no_stop_app in Hns. destruct Hns as [_ Hns].
      inversion Hns; congruence. }
  destruct Hrun as (n & c' & H1 & Hw & H2 & H3).
  exists n, c'. split; [exact H1|]. split; [exact Hw|].
  destruct Hw as ((cached' & Hpc') & Hitems' & Hclosed').
  split.
  - unfold step, alive, ProcessBufferedRecords_step, Dequeue.
    rewrite Hpc', Hitems', Hclosed'. reflexivity.
  - assert (Hinv' : drain_invariant c').
    { eapply exec_invariant; [exact Hfatal|exact Hinv|exact H1]. }
    destruct Hinv' as (_ & _ & Hseen). rewrite Hpc', Hitems' in Hseen.
    destruct Hseen as (h & Hn & Hcov & Ha).
    rewrite app_nil_r, H3 in Ha. subst h. split; [|split].
    + apply Hcov.
    + apply Forall_forall. intros x Hx. eapply covers_handled; eauto.
    + apply Hcov.
Qed.

(** ** A flush request and the auto-flush reference *)

Lemma single_flush_batch (c : Config) (cached : Z) :
  chain_never_throws ->
  _thread c = AtDequeue cached ->
  items (_queue c) = [] ->
  (0 < capacity (_queue c))%nat ->
  destructor c <> DtorReturned ->
  exists c',
    exec (ActFlush :: thread_steps 3) c = Some c' /\
    _thread c' = AtDequeue 0 /\
    items (_queue c') = [] /\
    capacity (_queue c') = capacity (_queue c) /\
    destructor c' = destructor c /\
    trace c' =
      trace c ++ EvFlush ::
      (if auto_flush_due cached 0 then [EvFlush] else []).
Proof.
  intros Hsafe Hpc Hitems Hcap Hd.
  cbn [exec].
  rewrite step_Flush_enqueue by (auto; eapply alive_AtDequeue; eauto).
  set (c1 := enqueue_logged c flush).
  assert (Hfull : is_full (_queue c) = false).
  { unfold is_full. rewrite Hitems. cbn. apply Nat.leb_gt. exact Hcap. }
  assert (Hq1 : items (_queue c1) = [flush]).
  { unfold c1, enqueue_logged, EnqueueRecord, Enqueue.
    rewrite Hfull. cbn. rewrite Hitems. reflexivity. }
  assert (Hrest : _thread c1 = _thread c /\ trace c1 = trace c /\
                  capacity (_queue c1) = capacity (_queue c) /\
                  destructor c1 = destructor c).
  { unfold c1, enqueue_logged, EnqueueRecord, Enqueue.
    rewrite Hfull. cbn. auto. }
  destruct Hrest as (R1 & R2 & R3 & R4).
  destruct (chain_calls_never_throws
              (batch_events (items (_queue c1)) ++
               if auto_flush_due cached (max_data_timestamp (items (_queue c1)))
               then [EvFlush] else []) (chain c1) Hsafe) as [d' Hd'].
  destruct (whole_batch c1 cached d')
    as (c2 & G1 & G2 & G3 & G4 & G5 & G6 & G7 & G8 & G9); auto.
  { congruence. }
  { rewrite Hq1. discriminate. }
  { rewrite Hq1. repeat constructor. }
  rewrite Hq1 in *.
  change (max_data_timestamp [flush]) with 0 in *.
  exists c2. repeat split; try congruence; [exact G1|].
  rewrite G3, R2. reflexivity.
Qed.

(** X5.  A flush request resets the reference of the auto-flush.  Let the
    thread wait on an empty queue with a cached timestamp of at most
    [2^63].  A data record enqueued alone is compared with the cached
    timestamp.  Enqueued after a [Flush()] that the thread has served, it
    is compared with 0 instead: the batch of the flush record, which
    itself triggers no auto-flush, has left 0 in the cached timestamp. *)
Theorem flush_request_resets_auto_flush (c : Config) (cached : Z)
        (r : LogRecord) :
  chain_never_throws ->
  _thread c = AtDequeue cached ->
  items (_queue c) = [] ->
  (0 < capacity (_queue c))%nat ->
  destructor c <> DtorReturned ->
  0 <= cached <= 2 ^ 63 ->
  2 <= timestamp r ->
  (exists c1,
      exec (ActProcessRecord r :: thread_steps 3) c = Some c1 /\
      _thread c1 = AtDequeue (timestamp r) /\
      trace c1 =
        trace c ++ EvProcessRecord r ::
        (if auto_flush_due cached (timestamp r) then [EvFlush] else [])) /\
  (exists c2,
      exec ((ActFlush :: thread_steps 3) ++
            (ActProcessRecord r :: thread_steps 3)) c = Some c2 /\
      _thread c2 = AtDequeue (timestamp r) /\
      trace c2 =
        trace c ++ EvFlush :: EvProcessRecord r ::
        (if auto_flush_due 0 (timestamp r) then [EvFlush] else [])).
Proof.
  intros Hsafe Hpc Hitems Hcap Hd Hcached Hr.
  assert (Hs : is_stop r = false) by (apply Z.eqb_neq; lia).
  assert (Hf : is_flush r = false) by (apply Z.eqb_neq; lia).
  split.
  - destruct (single_record_batch c cached r)
      as (c1 & A1 & A2 & A3 & A4 & A5 & A6); auto; [lia|].
    exists c1. auto.
  - destruct (single_flush_batch c cached)
      as (c1 & A1 & A2 & A3 & A4 & A5 & A6); auto.
    destruct (single_record_batch c1 0 r)
      as (c2 & B1 & B2 & B3 & B4 & B5 & B6); auto; try congruence; try lia.
    exists c2. split; [|split; [exact B2|]].
    + rewrite exec_app, A1. exact B1.
    + rewrite B6, A6.
      assert (Hback : auto_flush_due cached 0 = false).
      { destruct (Z.eq_dec cached 0) as [->|Hne].
        - apply auto_flush_due_same. unfold is_uint64. lia.
        - apply auto_flush_due_backward; unfold is_uint64; lia. }
      rewrite Hback. rewrite <- app_assoc. reflexivity.
Qed.

(** ** A producer's record with timestamp 0 *)

(** X6.  A record that a producer sends with timestamp 0 shuts the thread
    down like the destructor's stop record, whatever else it carries.  The
    thread, waiting on an empty queue, takes it and returns without a call;
    afterwards [ProcessRecord] still accepts records (it returns true), but
    in no continuation of the run does the trace of calls change: those
    records never reach the chain. *)
Theorem producer_stop_record_ends_thread (c : Config) (cached : Z)
        (r r' : LogRecord) :
  _thread c = AtDequeue cached ->
  items (_queue c) = [] ->
  (0 < capacity (_queue c))%nat ->
  destructor c <> DtorReturned ->
  timestamp r = 0 ->
  exists c',
    exec [ActProcessRecord r; ActThread; ActThread] c = Some c' /\
    _thread c' = Exited ThreadReturned /\
    trace c' = trace c /\
    fst (ProcessRecord (_queue c') r') = true /\
    forall s c'',
      exec (ActProcessRecord r' :: s) c' = Some c'' ->
      In r' (admitted c'') /\ trace c'' = trace c.
Proof.
  intros Hpc Hitems Hcap Hd Hr.
  assert (Hal : alive c = true) by (eapply alive_AtDequeue; eauto).
  assert (Hfull : is_full (_queue c) = false).
  { unfold is_full. rewrite Hitems. cbn. apply Nat.leb_gt. exact Hcap. }
  assert (Hfull' : (capacity (_queue c) <=? 0)%nat = false)
    by (apply Nat.leb_gt; exact Hcap).
  set (c1 := enqueue_logged c r).
  assert (Hc1 : _thread c1 = AtDequeue cached /\ items (_queue c1) = [r] /\
                trace c1 = trace c).
  { unfold c1, enqueue_logged, EnqueueRecord, Enqueue.
    rewrite Hfull. cbn. rewrite Hitems. auto. }
  destruct Hc1 as (P1 & Q1 & T1).
  destruct (dequeue_batch c1 cached P1)
    as (c2 & H1 & H2 & H3 & H4 & H5 & H6 & H7 & H8 & H9).
  { rewrite Q1. discriminate. }
  rewrite Q1 in H2.
  assert (Hcap2 : capacity (_queue c2) = capacity (_queue c)).
  { rewrite H4. unfold c1, enqueue_logged, EnqueueRecord, Enqueue.
    rewrite Hfull. reflexivity. }
  assert (Hd2 : destructor c2 = destructor c).
  { rewrite H8. unfold c1, enqueue_logged, EnqueueRecord, Enqueue.
    rewrite Hfull. reflexivity. }
  exists (set_thread c2 (Exited ThreadReturned)).
  split.
  { cbn [exec]. rewrite step_ProcessRecord_enqueue by auto.
    fold c1. rewrite H1.
    rewrite step_thread by (eapply alive_InBatch; eauto).
    unfold ProcessBufferedRecords_step. rewrite H2.
    unfold is_stop. rewrite Hr. reflexivity. }
  split; [reflexivity|]. split; [cbn; congruence|].
  split.
  - unfold ProcessRecord, EnqueueRecord, Enqueue, is_full. cbn.
    rewrite H3, Hcap2. cbn. rewrite Hfull'. reflexivity.
  - intros s c'' Hexec. cbn [exec] in Hexec.
    set (cx := set_thread c2 (Exited ThreadReturned)) in *.
    destruct (step (ActProcessRecord r') cx) as [c3|] eqn:Hstep;
      [|discriminate].
    assert (Hfx : is_full (_queue cx) = false).
    { unfold is_full, cx. cbn. rewrite H3, Hcap2. cbn. exact Hfull'. }
    assert (Hc3 : c3 = enqueue_logged cx r').
    { rewrite step_ProcessRecord_enqueue in Hstep.
      - inversion Hstep; reflexivity.
      - reflexivity.
      - unfold cx. cbn. congruence. }
    assert (Hin : In r' (admitted c3)).
    { rewrite Hc3, enqueue_logged_admitted, Hfx.
      apply in_or_app. right. left. reflexivity. }
    assert (Hpc3 : _thread c3 = Exited ThreadReturned /\ trace c3 = trace c).
    { rewrite Hc3. unfold enqueue_logged, EnqueueRecord, Enqueue.
      rewrite Hfx. cbn. split; [reflexivity|congruence]. }
    destruct Hpc3 as [Hpc3 Htr3].
    destruct (thread_exit_is_final s c3 c'' ThreadReturned Hpc3 Hexec)
      as (_ & F2 & _).
    destruct (exec_admitted _ _ _ Hexec) as [more Hmore].
    split; [rewrite Hmore; apply in_or_app; auto|congruence].
Qed.

(** ** An empty initialize handler in a development build *)

(** X7.  In a development build, an empty initialize handler aborts the
    process in the thread's first statement: in every run no call is ever
    made, and the thread is still before that statement or the assertion
    has failed; the destructor, once entered, does not return. *)
Theorem empty_initialize_handler_aborts (c0 : Chain) (capacity initial : nat)
        (s : list Action) (c : Config) :
  ndebug = false ->
  on_thread_initialize = EmptyHandler ->
  exec s (AsyncWaitProcessor c0 capacity initial) = Some c ->
  trace c = [] /\
  destructor c <> DtorReturned /\
  (_thread c = AtInitialize \/
   _thread c = Exited (AssertionFailed initialize_assertion)).
Proof.
  intros Hnd Hh.
  assert (H0 : trace (AsyncWaitProcessor c0 capacity initial) = [] /\
               destructor (AsyncWaitProcessor c0 capacity initial)
               <> DtorReturned /\
               (_thread (AsyncWaitProcessor c0 capacity initial)
                = AtInitialize \/
                _thread (AsyncWaitProcessor c0 capacity initial)
                = Exited (AssertionFailed initialize_assertion))).
  { cbn. repeat split; auto. discriminate. }
  revert H0. generalize (AsyncWaitProcessor c0 capacity initial).
  induction s as [|a s IH]; intros x Hx Hexec; cbn in Hexec.
  - inversion Hexec; subst; assumption.
  - destruct (step a x) as [x1|] eqn:Hstep; [|discriminate].
    apply (IH x1); auto. clear IH Hexec.
    destruct Hx as (Htr & Hd & Hpc).
    pose proof (step_alive _ _ _ Hstep) as Hal.
    destruct Hpc as [Hpc|Hpc];
      [|unfold alive in Hal; rewrite Hpc in Hal; discriminate].
    destruct a.
    + rewrite step_ProcessRecord_enqueue in Hstep; auto.
      inversion Hstep. unfold enqueue_logged, EnqueueRecord, Enqueue.
      destruct (is_full (_queue x)); cbn; auto.
    + rewrite step_Flush_enqueue in Hstep; auto.
      inversion Hstep. unfold enqueue_logged, EnqueueRecord, Enqueue.
      destruct (is_full (_queue x)); cbn; auto.
    + rewrite empty_initialize_handler in Hstep by assumption.
      rewrite Hnd in Hstep. inversion Hstep. cbn. auto.
    + unfold step in Hstep. rewrite Hal in Hstep. cbn in Hstep.
      destruct (destructor x); try discriminate. inversion Hstep.
      unfold destructor_enter, enqueue_logged, EnqueueRecord, Enqueue.
      destruct (is_full (_queue x)); cbn; repeat split; auto; discriminate.
    + unfold step in Hstep. rewrite Hal in Hstep. cbn in Hstep.
      destruct (destructor x); try discriminate.
      unfold destructor_join, thread_finished in Hstep.
      rewrite Hpc in Hstep. discriminate.
Qed.

End RunFacts.

(** ** Instances of the facts about runs *)

Lemma scenario_run_executes :
  exec scenario_run scenario_start = Some scenario_end.
Proof. vm_compute. reflexivity. Qed.

Lemma chain_sees_admitted_in_order_witness :
  exists h pending,
    admitted scenario_end = h ++ pending /\
    no_stop h /\
    processed (trace scenario_end) = data_records h /\
    subsequence (batch_events h) (trace scenario_end).
Proof.
  exact (chain_sees_admitted_in_order (E := development) tt 4%nat 4%nat
           scenario_run scenario_end scenario_run_executes).
Defined.

Lemma chain_never_sees_reserved_or_rejected_witness :
  In (EvProcessRecord (data 100)) (trace scenario_end) /\
  In (data 100) (admitted scenario_end) /\
  timestamp (data 100) <> 0 /\ timestamp (data 100) <> 1.
Proof.
  assert (Hin : In (EvProcessRecord (data 100)) (trace scenario_end))
    by (vm_compute; right; left; reflexivity).
  split; [exact Hin|].
  exact (chain_never_sees_reserved_or_rejected (E := development) tt 4%nat
           4%nat scenario_run scenario_end (data 100)
           scenario_run_executes Hin).
Defined.

Lemma batch_fits_reserved_buffer_witness :
  _thread scenario_ready = InBatch 0 0 scenario_records /\
  capacity (_queue scenario_ready) = 4%nat /\
  (length (items (_queue scenario_ready)) <= 4)%nat /\
  forall cached rt records,
    _thread scenario_ready = InBatch cached rt records ->
    (length records <= 4)%nat.
Proof.
  split; [vm_compute; reflexivity|].
  assert (Hrun : exec scenario_producers scenario_start = Some scenario_ready)
    by (vm_compute; reflexivity).
  exact (batch_fits_reserved_buffer (E := development) tt 4%nat 4%nat
           scenario_producers scenario_ready Hrun).
Defined.

Lemma thread_catches_up_witness :
  exists n c',
    exec (thread_steps n) scenario_full = Some c' /\
    waiting c' /\
    step ActThread c' = None /\
    processed (trace c') = data_records (admitted scenario_full) /\
    Forall (handled (trace c')) (admitted scenario_full) /\
    subsequence (batch_events (admitted scenario_full)) (trace c').
Proof.
  assert (Hinit : initialize_passes (E := development))
    by (left; reflexivity).
  assert (Hprod : Forall producer_respects_stop
                    (map ActProcessRecord scenario_records))
    by (repeat constructor).
  assert (Hrun : exec (map ActProcessRecord scenario_records) scenario_start
                 = Some scenario_full) by (vm_compute; reflexivity).
  assert (Hd : destructor scenario_full = DtorNotStarted)
    by (vm_compute; reflexivity).
  assert (Hal : alive scenario_full = true) by (vm_compute; reflexivity).
  exact (thread_catches_up (E := development) tt 4%nat 4%nat
           (map ActProcessRecord scenario_records) scenario_full
           development_never_throws Hinit Hprod Hrun Hd Hal).
Defined.

Lemma flush_request_resets_auto_flush_witness :
  (exists c1,
      exec (ActProcessRecord (data (ten_seconds + half_second))
              :: thread_steps 3)
        (config_at_dequeue (E := development) tt ten_seconds []) = Some c1 /\
      trace c1 =
        [EvInitialize; EvProcessRecord (data (ten_seconds + half_second))]) /\
  (exists c2,
      exec ((ActFlush :: thread_steps 3) ++
            (ActProcessRecord (data (ten_seconds + half_second))
               :: thread_steps 3))
        (config_at_dequeue (E := development) tt ten_seconds []) = Some c2 /\
      trace c2 =
        [EvInitialize; EvFlush;
         EvProcessRecord (data (ten_seconds + half_second)); EvFlush]).
Proof.
  destruct (flush_request_resets_auto_flush (E := development)
              (config_at_dequeue (E := development) tt ten_seconds [])
              ten_seconds (data (ten_seconds + half_second)))
    as ((c1 & A1 & _ & A3) & (c2 & B1 & _ & B3)).
  - exact development_never_throws.
  - reflexivity.
  - reflexivity.
  - cbn. lia.
  - discriminate.
  - vm_compute. split; discriminate.
  - vm_compute. discriminate.
  - split.
    + exists c1. split; [exact A1|]. rewrite A3. vm_compute. reflexivity.
    + exists c2. split; [exact B1|]. rewrite B3. vm_compute. reflexivity.
Defined.

Lemma producer_stop_record_ends_thread_witness :
  exists c',
    exec [ActProcessRecord stray_stop; ActThread; ActThread]
      (config_at_dequeue (E := development) tt 0 []) = Some c' /\
    _thread c' = Exited ThreadReturned /\
    trace c' = [EvInitialize] /\
    fst (ProcessRecord (_queue c') (data 100)) = true /\
    forall s c'',
      exec (ActProcessRecord (data 100) :: s) c' = Some c'' ->
      In (data 100) (admitted c'') /\ trace c'' = [EvInitialize].
Proof.
  apply (producer_stop_record_ends_thread (E := development)
           (config_at_dequeue (E := development) tt 0 []) 0
           stray_stop (data 100)).
  - reflexivity.
  - reflexivity.
  - cbn. lia.
  - discriminate.
  - reflexivity.
Defined.

Lemma empty_initialize_handler_aborts_witness :
  exists c,
    exec (E := development_without_initialize)
      [ActProcessRecord (data 100); ActThread]
      (AsyncWaitProcessor (E := development_without_initialize) tt 4 4)
    = Some c /\
    trace c = [] /\
    destructor c <> DtorReturned /\
    (_thread c = AtInitialize \/
     _thread c = Exited (AssertionFailed initialize_assertion)).
Proof.
  eexists. split; [vm_compute; reflexivity|].
  apply (empty_initialize_handler_aborts
           (E := development_without_initialize) tt 4%nat 4%nat
           [ActProcessRecord (data 100); ActThread]).
  - reflexivity.
  - reflexivity.
  - vm_compute. reflexivity.
Defined.

Lemma dropped_stop_blocks_join_witness :
  is_full (_queue scenario_full) = true /\
  destructor (after (ActDestroy :: thread_steps 7) scenario_full)
  <> DtorReturned /\
  _thread (after (ActDestroy :: thread_steps 7) scenario_full)
  <> Exited ThreadReturned.
Proof.
  assert (Hfatal : faults_are_fatal (E := development))
    by (right; reflexivity).
  assert (Hprod : Forall producer_respects_stop
                    (map ActProcessRecord scenario_records))
    by (repeat constructor).
  assert (Hthread : Forall producer_respects_stop (thread_steps 7))
    by (repeat constructor).
  assert (Hrun : exec (map ActProcessRecord scenario_records) scenario_start
                 = Some scenario_full) by (vm_compute; reflexivity).
  assert (Hd : destructor scenario_full = DtorNotStarted)
    by (vm_compute; reflexivity).
  assert (Hfull : is_full (_queue scenario_full) = true)
    by (vm_compute; reflexivity).
  assert (Hgo : exec (ActDestroy :: thread_steps 7) scenario_full
                = Some (after (ActDestroy :: thread_steps 7) scenario_full))
    by (vm_compute; reflexivity).
  split; [exact Hfull|].
  exact (dropped_stop_blocks_join (E := development) tt 4%nat 4%nat
           (map ActProcessRecord scenario_records) (thread_steps 7)
           scenario_full _ Hfatal Hprod Hthread Hrun Hd Hfull Hgo).
Defined.

Lemma cleanup_needs_returning_fatality_witness :
  exists c,
    exec (E := returning_fatality) poisoned_run
      (AsyncWaitProcessor (E := returning_fatality) tt 4 4) = Some c /\
    In EvCleanup (trace c) /\
    fatality_returns (Environment := returning_fatality) = true /\
    In (EvFatality fatality_message) (trace c).
Proof.
  eexists. split; [vm_compute; reflexivity|].
  assert (Hin : In EvCleanup
                  [EvInitialize; EvProcessRecord poison;
                   EvFatality fatality_message; EvCleanup])
    by (right; right; right; left; reflexivity).
  split; [exact Hin|].
  apply (cleanup_needs_returning_fatality (E := returning_fatality)
           tt 4%nat 4%nat poisoned_run).
  - vm_compute. reflexivity.
  - exact Hin.
Defined.

Lemma initialize_handler_called_first_witness :
  initialized_once scenario_end.
Proof.
  exact (initialize_handler_called_first (E := development) tt 4%nat 4%nat
           scenario_run scenario_end scenario_run_executes).
Defined.
